(** * go-expert-stress-test: the load-test engine of [main.go]

    A shallow embedding of the command-line load generator: flag
    validation ([parseFlags]), the per-request logic of a [worker], the
    aggregation loop of [runLoadTest], and an interleaving semantics of
    the goroutines of [runLoadTest] (spawned workers, the job producer and
    the aggregating main goroutine) over Go's buffered channels. *)

From stdpp Require Import gmap strings list fin_maps pretty.

Open Scope Z_scope.

(** ** Go's [int] on a 64-bit platform *)

Module GoInt.

Definition int_min : Z := - 2 ^ 63.
Definition int_max : Z := 2 ^ 63 - 1.

(** Two's complement wrap-around of an arbitrary integer into [int]. *)
Definition wrap (z : Z) : Z := (z + 2 ^ 63) mod 2 ^ 64 - 2 ^ 63.

Definition in_range (z : Z) : Prop := int_min <= z <= int_max.

(** [x + y] and [x++] on [int]. *)
Definition add (x y : Z) : Z := wrap (x + y).
Definition succ (x : Z) : Z := add x 1.

(** [x % y] truncates towards zero, like [Z.rem]. *)
Definition rem (x y : Z) : Z := Z.rem x y.

End GoInt.

(** ** Data model: [Config], [Result], [Report] *)

Record Config := mkConfig {
  URL : string;
  Requests : Z;
  Concurrency : Z
}.

(** Go's [error] interface value: [None] is [nil]. *)
Definition error := option string.

Record Result := mkResult {
  StatusCode : Z;
  Duration : Z;
  Error : error
}.

Record Report := mkReport {
  TotalTime : Z;
  TotalRequests : Z;
  SuccessRequests : Z;
  StatusCodes : gmap Z Z
}.

(** A configuration accepted by the validation of [parseFlags]. *)
Definition valid_config (c : Config) : Prop :=
  URL c <> "" /\ 0 < Requests c <= GoInt.int_max
  /\ 0 < Concurrency c <= GoInt.int_max.

(** ** [parseFlags]

    The argument is the [Config] as [flag.Parse] has filled it from the
    command line; the function is the validation and clamping that
    follows. *)

Definition err_url : string := "parâmetro --url é obrigatório".
Definition err_requests : string := "parâmetro --requests deve ser maior que 0".
Definition err_concurrency : string :=
  "parâmetro --concurrency deve ser maior que 0".

Definition parseFlags (config : Config) : string + Config :=
  if decide (URL config = "") then inl err_url
  else if Requests config <=? 0 then inl err_requests
  else if Concurrency config <=? 0 then inl err_concurrency
  else if Concurrency config >? Requests config
       then inr (mkConfig (URL config) (Requests config) (Requests config))
       else inr config.

(** ** The request logic of [worker]

    What the HTTP stack does with one ticket is the environment's choice:
    [http.NewRequestWithContext] fails, [client.Do] fails, or a response
    comes back carrying some status code. *)

Inductive HttpOutcome :=
  | RequestBuildFailed (err : string)
  | ClientError (err : string)
  | Response (status : Z).

(** The [Result] literal the worker sends on [results] for an outcome,
    [elapsed] being [time.Since(startTime)]. Fields left out of a Go
    composite literal take their zero value. *)
Definition worker_result (o : HttpOutcome) (elapsed : Z) : Result :=
  match o with
  | RequestBuildFailed err =>
      {| StatusCode := 0; Duration := elapsed; Error := Some err |}
  | ClientError err =>
      {| StatusCode := 0; Duration := elapsed; Error := Some err |}
  | Response status =>
      {| StatusCode := status; Duration := elapsed; Error := None |}
  end.

(** ** The aggregation loop of [runLoadTest] *)

(** [m[k]++] on a [map[int]int]: a missing key reads as zero. *)
Definition map_incr (k : Z) (m : gmap Z Z) : gmap Z Z :=
  <[k := GoInt.succ (default 0 (m !! k))]> m.

(** Lines 132-141: the counters updated for one received result. *)
Definition record_result (result : Result) (report : Report) : Report :=
  let total := GoInt.succ (TotalRequests report) in
  match Error result with
  | Some _ =>
      {| TotalTime := TotalTime report;
         TotalRequests := total;
         SuccessRequests := SuccessRequests report;
         StatusCodes := map_incr 0 (StatusCodes report) |}
  | None =>
      {| TotalTime := TotalTime report;
         TotalRequests := total;
         SuccessRequests :=
           if StatusCode result =? 200
           then GoInt.succ (SuccessRequests report)
           else SuccessRequests report;
         StatusCodes := map_incr (StatusCode result) (StatusCodes report) |}
  end.

(** Line 143: the condition guarding the progress line at loop index [i]. *)
Definition progress_due (i requests : Z) : bool :=
  (GoInt.rem (GoInt.succ i) 100 =? 0) || (GoInt.succ i =? requests).

Definition newline : string := String (Ascii.ascii_of_nat 10) EmptyString.

(** Line 144: [fmt.Printf("Progress: %d/%d requests completed\n", ...)]. *)
Definition progress_line (completed total : Z) : string :=
  "Progress: " +:+ pretty completed +:+ "/" +:+ pretty total
    +:+ " requests completed" +:+ newline.

Definition progress_output (i requests : Z) : list string :=
  if progress_due i requests
  then [progress_line (GoInt.succ i) requests]
  else [].

Definition empty_report : Report :=
  {| TotalTime := 0; TotalRequests := 0; SuccessRequests := 0;
     StatusCodes := ∅ |}.

(** The loop state: the index [i], the report under construction and
    what has been printed so far. *)
Record Agg := mkAgg {
  agg_i : Z;
  agg_report : Report;
  agg_out : list string
}.

Definition agg_init : Agg := mkAgg 0 empty_report [].

(** One iteration of the [for] loop with [result] received. *)
Definition agg_iter (requests : Z) (result : Result) (a : Agg) : Agg :=
  {| agg_i := GoInt.succ (agg_i a);
     agg_report := record_result result (agg_report a);
     agg_out := agg_out a ++ progress_output (agg_i a) requests |}.

(** The loop fed with the results in the order the channel delivers
    them; it stops at [i >= requests], and it stops (blocked on the
    receive) when nothing more arrives. *)
Fixpoint aggregation_loop (requests : Z) (results : list Result) (a : Agg)
  : Agg :=
  match results with
  | [] => a
  | result :: rest =>
      if agg_i a <? requests
      then aggregation_loop requests rest (agg_iter requests result a)
      else a
  end.

Definition aggregate (requests : Z) (results : list Result) : Agg :=
  aggregation_loop requests results agg_init.

(** Sum of the values of a status-code histogram. *)
Definition map_sum (m : gmap Z Z) : Z :=
  map_fold (fun _ v acc => v + acc) 0 m.

Definition non_200 (m : gmap Z Z) : gmap Z Z :=
  filter (fun kv => kv.1 <> 200) m.

(** The printed lines the loop owes after [n] completed results: one for
    every completed count that is a multiple of 100 or the total. *)
Definition progress_mark (requests k : Z) : bool :=
  (k mod 100 =? 0) || (k =? requests).

Definition counts_upto (n : nat) : list Z := Z.of_nat <$> seq 1 n.

Definition expected_progress (requests : Z) (n : nat) : list string :=
  (fun k => progress_line k requests)
    <$> filter (fun k => progress_mark requests k = true) (counts_upto n).

(** ** What the statements say of the counters *)

(** The key of [StatusCodes] a result is counted under. *)
Definition counted_under (result : Result) : Z :=
  match Error result with Some _ => 0 | None => StatusCode result end.

Definition counts_as_success (result : Result) : bool :=
  match Error result with
  | Some _ => false
  | None => StatusCode result =? 200
  end.

(** What holds of a report after [n] results. *)
Record report_ok (n : Z) (report : Report) : Prop := {
  ok_total : TotalRequests report = n;
  ok_sum : map_sum (StatusCodes report) = n;
  ok_pos : map_Forall (fun _ v => 0 < v) (StatusCodes report);
  ok_success :
    SuccessRequests report = default 0 (StatusCodes report !! 200)
}.

(** What holds of the loop state between two iterations. *)
Record agg_ok (requests : Z) (a : Agg) : Prop := {
  ok_index : 0 <= agg_i a <= Z.max 0 requests;
  ok_report : report_ok (agg_i a) (agg_report a);
  ok_out : agg_out a = expected_progress requests (Z.to_nat (agg_i a))
}.

(** ** Buffered channels *)

Record Chan (A : Type) := mkChan {
  chan_buf : list A;
  chan_cap : Z;
  chan_closed : bool
}.
Arguments mkChan {A} _ _ _.
Arguments chan_buf {A} _.
Arguments chan_cap {A} _.
Arguments chan_closed {A} _.

(** [make(chan A, n)] *)
Definition make_chan {A} (n : Z) : Chan A :=
  {| chan_buf := []; chan_cap := n; chan_closed := false |}.

Inductive SendOutcome (A : Type) :=
  | Sent (c : Chan A)
  | SendBlocks
  | SendPanics.
Arguments Sent {A} _.
Arguments SendBlocks {A}.
Arguments SendPanics {A}.

(** [c <- v]: a send on a closed channel panics; otherwise the value
    goes to the back of the buffer when there is room. (Both channels of
    [runLoadTest] are made with capacity [Requests], positive in every
    run, so the rendezvous of an unbuffered channel is not modelled.) *)
Definition chan_send {A} (c : Chan A) (v : A) : SendOutcome A :=
  if chan_closed c then SendPanics
  else if Z.of_nat (length (chan_buf c)) <? chan_cap c
       then Sent {| chan_buf := chan_buf c ++ [v];
                    chan_cap := chan_cap c;
                    chan_closed := chan_closed c |}
       else SendBlocks.

Inductive RecvOutcome (A : Type) :=
  | Received (v : A) (c : Chan A)
  | RecvClosed
  | RecvBlocks.
Arguments Received {A} _ _.
Arguments RecvClosed {A}.
Arguments RecvBlocks {A}.

(** [v, ok := <-c]: buffered values are delivered first, also after
    [close]; a closed and drained channel answers [ok = false]. *)
Definition chan_recv {A} (c : Chan A) : RecvOutcome A :=
  match chan_buf c with
  | v :: rest =>
      Received v {| chan_buf := rest;
                    chan_cap := chan_cap c;
                    chan_closed := chan_closed c |}
  | [] => if chan_closed c then RecvClosed else RecvBlocks
  end.

(** [close(c)]: [None] is the panic of closing a closed channel. *)
Definition chan_close {A} (c : Chan A) : option (Chan A) :=
  if chan_closed c then None
  else Some {| chan_buf := chan_buf c;
               chan_cap := chan_cap c;
               chan_closed := true |}.

(** ** The goroutines of [runLoadTest] *)

(** Program points of a [worker]. *)
Inductive Worker :=
  | WSelect              (* at the [select] of line 59 *)
  | WNewRequest          (* holds a ticket, before line 68 *)
  | WClientDo            (* request built, before line 74 *)
  | WSend (r : Result)   (* before the send of line 70, 78 or 83 *)
  | WReturned.

(** Program points of the anonymous producer of lines 119-124. *)
Inductive Producer :=
  | PNotStarted
  | PLoop (i : Z)
  | PClosed.

(** Program points of the goroutine running [runLoadTest]. *)
Inductive Main :=
  | MSpawn (i : Z)              (* loop of line 110 *)
  | MAggregate (a : Agg)        (* loop of line 130 *)
  | MCancel (a : Agg)           (* before [cancel()], line 150 *)
  | MWait (a : Agg)             (* before [wg.Wait()], line 151 *)
  | MCloseResults (a : Agg)     (* before [close(results)], line 152 *)
  | MReturned (a : Agg).

Record State := mkState {
  ctx_done : bool;              (* the context has been cancelled *)
  jobs : Chan Z;
  results : Chan Result;
  pool : list Worker;           (* the workers started so far *)
  producer : Producer;
  main : Main;
  panicked : bool;
  (* history of the two channels, kept for the statements only *)
  tickets_sent : list Z;
  results_sent : list Result
}.

Definition set_ctx_done (s : State) : State :=
  mkState true (jobs s) (results s) (pool s) (producer s) (main s)
          (panicked s) (tickets_sent s) (results_sent s).
Definition set_jobs (c : Chan Z) (s : State) : State :=
  mkState (ctx_done s) c (results s) (pool s) (producer s) (main s)
          (panicked s) (tickets_sent s) (results_sent s).
Definition set_results (c : Chan Result) (s : State) : State :=
  mkState (ctx_done s) (jobs s) c (pool s) (producer s) (main s)
          (panicked s) (tickets_sent s) (results_sent s).
Definition set_pool (p : list Worker) (s : State) : State :=
  mkState (ctx_done s) (jobs s) (results s) p (producer s) (main s)
          (panicked s) (tickets_sent s) (results_sent s).
Definition set_producer (p : Producer) (s : State) : State :=
  mkState (ctx_done s) (jobs s) (results s) (pool s) p (main s)
          (panicked s) (tickets_sent s) (results_sent s).
Definition set_main (m : Main) (s : State) : State :=
  mkState (ctx_done s) (jobs s) (results s) (pool s) (producer s) m
          (panicked s) (tickets_sent s) (results_sent s).
Definition set_panicked (s : State) : State :=
  mkState (ctx_done s) (jobs s) (results s) (pool s) (producer s) (main s)
          true (tickets_sent s) (results_sent s).
Definition log_ticket (t : Z) (s : State) : State :=
  mkState (ctx_done s) (jobs s) (results s) (pool s) (producer s) (main s)
          (panicked s) (tickets_sent s ++ [t]) (results_sent s).
Definition log_result (r : Result) (s : State) : State :=
  mkState (ctx_done s) (jobs s) (results s) (pool s) (producer s) (main s)
          (panicked s) (tickets_sent s) (results_sent s ++ [r]).

(** What the environment decides when a worker moves. *)
Inductive WorkerAct :=
  | TakeDone                                   (* select: [<-ctx.Done()] *)
  | TakeJob                                    (* select: [<-jobs] *)
  | NewRequest (err : error) (elapsed : Z)     (* line 68 returns *)
  | ClientDo (resp : string + Z) (elapsed : Z) (* line 74 returns *)
  | SendResult.

Inductive Action :=
  | ActMain (now : Z)     (* [now]: the clock read by [time.Since] *)
  | ActProducer
  | ActWorker (w : nat) (act : WorkerAct).

Definition zero_result : Result :=
  {| StatusCode := 0; Duration := 0; Error := None |}.

Definition set_total_time (t : Z) (a : Agg) : Agg :=
  {| agg_i := agg_i a;
     agg_report :=
       {| TotalTime := t;
          TotalRequests := TotalRequests (agg_report a);
          SuccessRequests := SuccessRequests (agg_report a);
          StatusCodes := StatusCodes (agg_report a) |};
     agg_out := agg_out a |}.

Definition is_returned (w : Worker) : bool :=
  match w with WReturned => true | _ => false end.

Definition made_by_worker (r : Result) : Prop :=
  exists o elapsed, r = worker_result o elapsed.

Definition worker_wf (w : Worker) : Prop :=
  match w with WSend r => made_by_worker r | _ => True end.

(** The tickets [0, 1, ..., n-1]. *)
Definition ticket_range (n : Z) : list Z := Z.of_nat <$> seq 0 (Z.to_nat n).

Section Run.

Variable config : Config.

(** The state after lines 103-109: context and channels made, nothing
    started yet. *)
Definition init : State :=
  {| ctx_done := false;
     jobs := make_chan (Requests config);
     results := make_chan (Requests config);
     pool := [];
     producer := PNotStarted;
     main := MSpawn 0;
     panicked := false;
     tickets_sent := [];
     results_sent := [] |}.

(** One step of a worker at program point [w]: the new program point
    and the shared state. *)
Definition worker_step (act : WorkerAct) (w : Worker) (s : State)
  : option (Worker * State) :=
  match w, act with
  | WSelect, TakeDone =>
      if ctx_done s then Some (WReturned, s) else None
  | WSelect, TakeJob =>
      match chan_recv (jobs s) with
      | Received _ c => Some (WNewRequest, set_jobs c s)
      | RecvClosed => Some (WReturned, s)
      | RecvBlocks => None
      end
  | WNewRequest, NewRequest (Some err) elapsed =>
      Some (WSend (worker_result (RequestBuildFailed err) elapsed), s)
  | WNewRequest, NewRequest None _ => Some (WClientDo, s)
  | WClientDo, ClientDo (inl err) elapsed =>
      Some (WSend (worker_result (ClientError err) elapsed), s)
  | WClientDo, ClientDo (inr status) elapsed =>
      Some (WSend (worker_result (Response status) elapsed), s)
  | WSend r, SendResult =>
      match chan_send (results s) r with
      | Sent c => Some (WSelect, set_results c (log_result r s))
      | SendPanics => Some (WSend r, set_panicked s)
      | SendBlocks => None
      end
  | _, _ => None
  end.

Definition producer_step (s : State) : option State :=
  match producer s with
  | PNotStarted => None
  | PLoop i =>
      if i <? Requests config then
        match chan_send (jobs s) i with
        | Sent c =>
            Some (set_producer (PLoop (GoInt.succ i))
                    (set_jobs c (log_ticket i s)))
        | SendPanics => Some (set_panicked s)
        | SendBlocks => None
        end
      else
        match chan_close (jobs s) with
        | Some c => Some (set_producer PClosed (set_jobs c s))
        | None => Some (set_panicked s)
        end
  | PClosed => None
  end.

Definition main_step (now : Z) (s : State) : option State :=
  match main s with
  | MSpawn i =>
      if i <? Concurrency config
      then Some (set_main (MSpawn (GoInt.succ i))
                   (set_pool (pool s ++ [WSelect]) s))
      else Some (set_main (MAggregate agg_init)
                   (set_producer (PLoop 0) s))
  | MAggregate a =>
      if agg_i a <? Requests config then
        match chan_recv (results s) with
        | Received r c =>
            Some (set_main (MAggregate (agg_iter (Requests config) r a))
                    (set_results c s))
        | RecvClosed =>
            Some (set_main
                    (MAggregate (agg_iter (Requests config) zero_result a))
                    s)
        | RecvBlocks => None
        end
      else Some (set_main (MCancel (set_total_time now a)) s)
  | MCancel a => Some (set_main (MWait a) (set_ctx_done s))
  | MWait a =>
      if forallb is_returned (pool s)
      then Some (set_main (MCloseResults a) s)
      else None
  | MCloseResults a =>
      (* the deferred [cancel()] then finds the context cancelled *)
      match chan_close (results s) with
      | Some c => Some (set_main (MReturned a) (set_results c s))
      | None => Some (set_panicked s)
      end
  | MReturned _ => None
  end.

(** One scheduling step; [None] when the chosen goroutine cannot move
    (blocked, finished, or the program has crashed). *)
Definition do_action (a : Action) (s : State) : option State :=
  if panicked s then None
  else match a with
       | ActMain now => main_step now s
       | ActProducer => producer_step s
       | ActWorker idx act =>
           match pool s !! idx with
           | None => None
           | Some w =>
               match worker_step act w s with
               | None => None
               | Some (w', s') => Some (set_pool (<[idx := w']> (pool s')) s')
               end
           end
       end.

Fixpoint run (acts : list Action) (s : State) : option State :=
  match acts with
  | [] => Some s
  | a :: rest =>
      match do_action a s with
      | Some s' => run rest s'
      | None => None
      end
  end.

Inductive reachable : State -> Prop :=
  | reachable_init : reachable init
  | reachable_step s a s' :
      reachable s -> do_action a s = Some s' -> reachable s'.

(** ** Counting and ranking functions used by the statements *)

Definition in_flight (w : Worker) : bool :=
  match w with
  | WNewRequest | WClientDo | WSend _ => true
  | _ => false
  end.

Definition pool_sum (f : Worker -> Z) (p : list Worker) : Z :=
  foldr (fun w acc => f w + acc) 0 p.

(** Workers holding a ticket whose result is not sent yet. *)
Definition busy (p : list Worker) : Z :=
  pool_sum (fun w => if in_flight w then 1 else 0) p.

(** Results the aggregation loop has received so far. *)
Definition collected (m : Main) : Z :=
  match m with
  | MSpawn _ => 0
  | MAggregate a | MCancel a | MWait a | MCloseResults a | MReturned a =>
      agg_i a
  end.

Definition worker_rank (w : Worker) : Z :=
  match w with
  | WReturned => 0
  | WSelect => 1
  | WSend _ => 2
  | WClientDo => 3
  | WNewRequest => 4
  end.

Definition pool_rank (p : list Worker) : Z := pool_sum worker_rank p.

Definition producer_rank (p : Producer) : Z :=
  match p with
  | PNotStarted => 5 * Requests config + 1
  | PLoop i => 5 * (Requests config - i) + 1
  | PClosed => 0
  end.

Definition main_rank (m : Main) : Z :=
  match m with
  | MSpawn i => 2 * (Concurrency config - i) + Requests config + 5
  | MAggregate a => Requests config - agg_i a + 4
  | MCancel _ => 3
  | MWait _ => 2
  | MCloseResults _ => 1
  | MReturned _ => 0
  end.

(** Strictly decreasing along every scheduling step. *)
Definition measure (s : State) : Z :=
  main_rank (main s) + producer_rank (producer s) + pool_rank (pool s)
  + 4 * Z.of_nat (length (chan_buf (jobs s))).

(** ** Invariants of the reachable states *)

Definition producer_inv (s : State) : Prop :=
  match producer s with
  | PNotStarted =>
      tickets_sent s = [] /\ chan_closed (jobs s) = false
  | PLoop i =>
      0 <= i <= Requests config
      /\ tickets_sent s = ticket_range i
      /\ chan_closed (jobs s) = false
  | PClosed =>
      tickets_sent s = ticket_range (Requests config)
      /\ chan_closed (jobs s) = true
  end.

Definition all_returned (p : list Worker) : Prop :=
  Forall (fun w => w = WReturned) p.

Definition main_inv (s : State) : Prop :=
  match main s with
  | MSpawn i =>
      0 <= i <= Concurrency config
      /\ pool s = replicate (Z.to_nat i) WSelect
      /\ producer s = PNotStarted
      /\ ctx_done s = false
      /\ chan_closed (results s) = false
  | MAggregate a =>
      agg_ok (Requests config) a
      /\ producer s <> PNotStarted
      /\ ctx_done s = false
      /\ chan_closed (results s) = false
  | MCancel a =>
      agg_ok (Requests config) a /\ agg_i a = Requests config
      /\ producer s <> PNotStarted
      /\ ctx_done s = false
      /\ chan_closed (results s) = false
  | MWait a =>
      agg_ok (Requests config) a /\ agg_i a = Requests config
      /\ producer s <> PNotStarted
      /\ ctx_done s = true
      /\ chan_closed (results s) = false
  | MCloseResults a =>
      agg_ok (Requests config) a /\ agg_i a = Requests config
      /\ producer s <> PNotStarted
      /\ ctx_done s = true
      /\ chan_closed (results s) = false
      /\ all_returned (pool s)
  | MReturned a =>
      agg_ok (Requests config) a /\ agg_i a = Requests config
      /\ producer s <> PNotStarted
      /\ ctx_done s = true
      /\ chan_closed (results s) = true
      /\ all_returned (pool s)
  end.

Definition spawning (m : Main) : bool :=
  match m with MSpawn _ => true | _ => false end.

Definition aggregating (m : Main) : bool :=
  match m with MAggregate _ | MCancel _ | MWait _ => true | _ => false end.

Definition returned (m : Main) : bool :=
  match m with MReturned _ => true | _ => false end.

Record inv (s : State) : Prop := {
  inv_nopanic : panicked s = false;
  inv_jobs_cap : chan_cap (jobs s) = Requests config;
  inv_results_cap : chan_cap (results s) = Requests config;
  inv_producer : producer_inv s;
  inv_main : main_inv s;
  inv_pool :
    spawning (main s) = false ->
    Z.of_nat (length (pool s)) = Concurrency config;
  inv_tickets :
    Z.of_nat (length (tickets_sent s)) =
      Z.of_nat (length (chan_buf (jobs s))) + busy (pool s)
      + Z.of_nat (length (results_sent s));
  inv_results :
    Z.of_nat (length (results_sent s)) =
      Z.of_nat (length (chan_buf (results s))) + collected (main s);
  inv_returned :
    WReturned ∈ pool s ->
    ctx_done s = true
    \/ (chan_closed (jobs s) = true /\ chan_buf (jobs s) = []);
  inv_wf : Forall worker_wf (pool s);
  inv_sent : Forall made_by_worker (results_sent s)
}.

End Run.

(** ** [main] *)

Inductive Process :=
  | Exit1 (err : string)        (* error reported, [os.Exit(1)] *)
  | Running (config : Config) (s : State).

Definition main_start (flags : Config) : Process :=
  match parseFlags flags with
  | inl err => Exit1 err
  | inr config => Running config (init config)
  end.

Definition workers_started (p : Process) : nat :=
  match p with Exit1 _ => 0%nat | Running _ s => length (pool s) end.
Definition tickets_produced (p : Process) : list Z :=
  match p with Exit1 _ => [] | Running _ s => tickets_sent s end.

Definition rejected (flags : Config) : Prop :=
  URL flags = "" \/ Requests flags <= 0 \/ Concurrency flags <= 0.

Definition run_of (p : Process) : option State :=
  match p with Exit1 _ => None | Running _ s => Some s end.

(** A small run used to exercise the model: two requests, two workers,
    one request that cannot be built and one answered with 200. *)
Definition demo : Config := mkConfig "http://localhost" 2 2.

Definition demo_schedule : list Action :=
  [ActMain 0; ActMain 0; ActMain 0; ActProducer; ActWorker 1 TakeJob;
   ActProducer; ActWorker 0 TakeJob; ActWorker 0 (NewRequest None 0);
   ActWorker 1 (NewRequest (Some "bad") 3); ActWorker 1 SendResult;
   ActWorker 0 (ClientDo (inr 200) 7); ActMain 0; ActWorker 0 SendResult;
   ActMain 0; ActMain 9; ActMain 0; ActWorker 0 TakeDone; ActProducer;
   ActWorker 1 TakeJob; ActMain 0; ActMain 0].

(** The state the demo schedule ends in. *)
Definition demo_final : State :=
  default (init demo) (run demo demo_schedule (init demo)).

(** The flags of the clamping example: one request, five workers asked. *)
Definition one_request : Config := mkConfig "http://localhost" 1 5.

(** ** Counting over the results the loop has processed *)

(** The results the loop gets to: at most [requests] of them. *)
Definition processed (requests : Z) (results : list Result) : list Result :=
  take (Z.to_nat requests) results.

(** How many of [results] are counted under key [k]. *)
Definition tally (k : Z) (results : list Result) : Z :=
  Z.of_nat (length (filter (fun r => counted_under r = k) results)).

(** How many of [results] count as a success. *)
Definition successes (results : list Result) : Z :=
  Z.of_nat (length (filter (fun r => counts_as_success r = true) results)).

(** The key of [StatusCodes] an outcome of the HTTP stack ends under. *)
Definition outcome_key (o : HttpOutcome) : Z :=
  match o with Response status => status | _ => 0 end.

(** Whether an outcome is a response with status 200. *)
Definition outcome_ok (o : HttpOutcome) : bool :=
  match o with Response status => status =? 200 | _ => false end.

(** The loop state of [m] is the sequential loop run on [received]. *)
Definition agg_matches (requests : Z) (m : Main) (received : list Result)
  : Prop :=
  match m with
  | MSpawn _ => received = []
  | MAggregate a => a = aggregate requests received
  | MCancel a | MWait a | MCloseResults a | MReturned a =>
      exists t, a = set_total_time t (aggregate requests received)
  end.

(** A prefix of the demo schedule that stops with worker 1 about to send
    its result. *)
Definition demo_sending : State :=
  default (init demo) (run demo (take 9 demo_schedule) (init demo)).

(** * Properties *)

(** ** Arithmetic on [int] *)

Lemma wrap_in_range z : GoInt.in_range z -> GoInt.wrap z = z.
Proof.
  unfold GoInt.in_range, GoInt.int_min, GoInt.int_max, GoInt.wrap.
  intros Hz. rewrite Z.mod_small; lia.
Qed.

Lemma succ_small x : 0 <= x < GoInt.int_max -> GoInt.succ x = x + 1.
Proof.
  intros Hx. unfold GoInt.succ, GoInt.add. apply wrap_in_range.
  unfold GoInt.in_range, GoInt.int_min, GoInt.int_max in *. lia.
Qed.

Lemma succ_below x bound :
  0 <= x < bound -> bound <= GoInt.int_max -> GoInt.succ x = x + 1.
Proof. intros Hx Hb. apply succ_small. lia. Qed.

Lemma rem_nonneg x : 0 <= x -> GoInt.rem x 100 = x mod 100.
Proof. intros Hx. unfold GoInt.rem. apply Z.rem_mod_nonneg; lia. Qed.

(** ** Sums over a histogram *)

Lemma map_sum_empty : map_sum ∅ = 0.
Proof. unfold map_sum. apply map_fold_empty. Qed.

Lemma map_sum_insert_fresh (m : gmap Z Z) k v :
  m !! k = None -> map_sum (<[k := v]> m) = v + map_sum m.
Proof.
  intros Hk. unfold map_sum.
  rewrite map_fold_insert_L; [done | intros; lia | done].
Qed.

Lemma map_sum_delete (m : gmap Z Z) k v :
  m !! k = Some v -> map_sum m = v + map_sum (delete k m).
Proof.
  intros Hk. rewrite <- (insert_delete_id m k v Hk) at 1.
  apply map_sum_insert_fresh, lookup_delete_eq.
Qed.

Lemma map_sum_insert (m : gmap Z Z) k v :
  map_sum (<[k := v]> m) = v + map_sum m - default 0 (m !! k).
Proof.
  destruct (m !! k) as [x|] eqn:Hk; simpl.
  - rewrite <- insert_delete_eq.
    rewrite map_sum_insert_fresh by apply lookup_delete_eq.
    rewrite (map_sum_delete m k x Hk). lia.
  - rewrite map_sum_insert_fresh by done. lia.
Qed.

Lemma map_sum_split_200 (m : gmap Z Z) :
  map_sum m = default 0 (m !! 200) + map_sum (non_200 m).
Proof.
  unfold non_200. destruct (m !! 200) as [x|] eqn:Hk; simpl.
  - rewrite (map_sum_delete m 200 x Hk). f_equal.
    rewrite <- (insert_delete_id m 200 x Hk) at 2.
    rewrite map_filter_insert_False by (simpl; tauto).
    rewrite delete_delete_eq.
    rewrite map_filter_id; [done|].
    intros i y Hi. simpl. intros ->. by rewrite lookup_delete_eq in Hi.
  - rewrite map_filter_id; [done|].
    intros i y Hi. simpl. intros ->. congruence.
Qed.

(** ** The counters of the aggregation loop *)

Lemma report_ok_empty : report_ok 0 empty_report.
Proof.
  split; simpl; first [done | apply map_sum_empty | apply map_Forall_empty].
Qed.

Lemma map_sum_nonneg (m : gmap Z Z) :
  map_Forall (fun _ v => 0 < v) m -> 0 <= map_sum m.
Proof.
  induction m as [|i x m Hi IH] using map_ind; intros Hm.
  - rewrite map_sum_empty. lia.
  - rewrite map_sum_insert_fresh by done.
    apply map_Forall_insert in Hm as [Hx Hm]; [|done].
    specialize (IH Hm). lia.
Qed.

Lemma report_ok_entry n report k :
  report_ok n report -> 0 <= default 0 (StatusCodes report !! k) <= n.
Proof.
  intros [_ Hsum Hpos _].
  pose proof (map_sum_nonneg _ Hpos) as Hnn.
  destruct (StatusCodes report !! k) as [v|] eqn:Hk; simpl; [|lia].
  pose proof (Hpos k v Hk) as Hv. simpl in Hv.
  rewrite (map_sum_delete _ k v Hk) in Hsum.
  assert (Hd : map_Forall (fun _ v => 0 < v) (delete k (StatusCodes report))).
  { intros i x Hi. apply (Hpos i x).
    apply lookup_delete_Some in Hi. tauto. }
  apply map_sum_nonneg in Hd. lia.
Qed.

Lemma map_incr_lookup (m : gmap Z Z) k j :
  map_incr k m !! j =
    if decide (j = k) then Some (GoInt.succ (default 0 (m !! k))) else m !! j.
Proof.
  unfold map_incr. case_decide as Hj.
  - subst. apply lookup_insert_eq.
  - by apply lookup_insert_ne.
Qed.

Lemma record_result_codes result report :
  StatusCodes (record_result result report) =
    map_incr (counted_under result) (StatusCodes report).
Proof. unfold record_result, counted_under. by destruct (Error result). Qed.

Lemma record_result_success result report :
  SuccessRequests (record_result result report) =
    if counts_as_success result
    then GoInt.succ (SuccessRequests report)
    else SuccessRequests report.
Proof. unfold record_result, counts_as_success. by destruct (Error result). Qed.

Lemma record_result_total result report :
  TotalRequests (record_result result report) =
    GoInt.succ (TotalRequests report).
Proof. unfold record_result. by destruct (Error result). Qed.

Lemma record_result_time result report :
  TotalTime (record_result result report) = TotalTime report.
Proof. unfold record_result. by destruct (Error result). Qed.

Lemma counts_as_success_key result :
  counts_as_success result = true -> counted_under result = 200.
Proof.
  unfold counts_as_success, counted_under.
  destruct (Error result); [done|]. lia.
Qed.

Lemma counts_as_success_not result :
  Error result = None -> counts_as_success result = false ->
  counted_under result <> 200.
Proof.
  unfold counts_as_success, counted_under. intros ->. lia.
Qed.

Lemma record_result_ok n result report :
  0 <= n < GoInt.int_max ->
  report_ok n report -> report_ok (n + 1) (record_result result report).
Proof.
  intros Hn Hok.
  pose proof (report_ok_entry n report (counted_under result) Hok) as Hentry.
  destruct Hok as [Htot Hsum Hpos Hsucc].
  assert (Hnew : GoInt.succ (default 0 (StatusCodes report !! counted_under result))
                 = default 0 (StatusCodes report !! counted_under result) + 1).
  { apply succ_small. lia. }
  split.
  - rewrite record_result_total, Htot. apply succ_small. lia.
  - rewrite record_result_codes. unfold map_incr.
    rewrite map_sum_insert, Hnew. lia.
  - rewrite record_result_codes. unfold map_incr.
    apply map_Forall_insert_2; [lia | done].
  - rewrite record_result_success, record_result_codes, map_incr_lookup.
    destruct (counts_as_success result) eqn:Hs.
    + apply counts_as_success_key in Hs. rewrite Hs in *.
      rewrite decide_True by done. simpl. rewrite Hnew. congruence.
    + case_decide as Hk; [|done]. exfalso.
      unfold counts_as_success, counted_under in *.
      destruct (Error result); [done|]. lia.
Qed.

(** ** Progress lines *)

Lemma counts_upto_S n : counts_upto (S n) = counts_upto n ++ [Z.of_nat (S n)].
Proof. unfold counts_upto. by rewrite seq_S, fmap_app. Qed.

Lemma expected_progress_S requests n :
  expected_progress requests (S n) =
    expected_progress requests n ++
      (if progress_mark requests (Z.of_nat (S n))
       then [progress_line (Z.of_nat (S n)) requests] else []).
Proof.
  unfold expected_progress. rewrite counts_upto_S, filter_app, fmap_app.
  f_equal. rewrite filter_cons, filter_nil.
  destruct (progress_mark requests (Z.of_nat (S n))); by case_decide.
Qed.

Lemma progress_output_mark i requests :
  0 <= i < GoInt.int_max ->
  progress_output i requests =
    if progress_mark requests (i + 1)
    then [progress_line (i + 1) requests] else [].
Proof.
  intros Hi. unfold progress_output, progress_due, progress_mark.
  rewrite (succ_small i Hi), rem_nonneg by lia. done.
Qed.

Lemma agg_ok_init requests : agg_ok requests agg_init.
Proof. split; simpl; [lia | apply report_ok_empty | done]. Qed.

Lemma agg_iter_index requests result a :
  0 <= agg_i a < requests -> requests <= GoInt.int_max ->
  agg_i (agg_iter requests result a) = agg_i a + 1.
Proof. intros Hi Hr. simpl. by apply (succ_below _ requests). Qed.

Lemma agg_iter_ok requests result a :
  requests <= GoInt.int_max -> agg_i a < requests ->
  agg_ok requests a -> agg_ok requests (agg_iter requests result a).
Proof.
  intros Hr Hlt [Hi Hrep Hout].
  assert (Hsucc : GoInt.succ (agg_i a) = agg_i a + 1)
    by (apply (succ_below _ requests); lia).
  split; simpl; rewrite Hsucc.
  - lia.
  - apply record_result_ok; [lia | done].
  - rewrite Hout, progress_output_mark by lia.
    replace (Z.to_nat (agg_i a + 1)) with (S (Z.to_nat (agg_i a))) by lia.
    rewrite expected_progress_S.
    by replace (Z.of_nat (S (Z.to_nat (agg_i a)))) with (agg_i a + 1) by lia.
Qed.

Lemma aggregation_loop_ok requests results a :
  requests <= GoInt.int_max ->
  agg_ok requests a -> agg_ok requests (aggregation_loop requests results a).
Proof.
  intros Hr. revert a.
  induction results as [|result rest IH]; intros a Hok; simpl; [done|].
  destruct (agg_i a <? requests) eqn:Hlt; [|done].
  apply IH, agg_iter_ok; [done | lia | done].
Qed.

Lemma aggregation_loop_index requests results a :
  requests <= GoInt.int_max -> 0 <= agg_i a ->
  agg_i (aggregation_loop requests results a) =
    Z.min (agg_i a + Z.of_nat (length results)) (Z.max requests (agg_i a)).
Proof.
  intros Hr. revert a.
  induction results as [|result rest IH]; intros a Hi; simpl; [lia|].
  destruct (agg_i a <? requests) eqn:Hlt; [|lia].
  rewrite IH; rewrite agg_iter_index by lia; lia.
Qed.

Lemma aggregate_ok requests results :
  requests <= GoInt.int_max -> agg_ok requests (aggregate requests results).
Proof. intros Hr. apply aggregation_loop_ok, agg_ok_init. done. Qed.

Lemma aggregate_index requests results :
  requests <= GoInt.int_max ->
  agg_i (aggregate requests results) =
    Z.max 0 (Z.min (Z.of_nat (length results)) requests).
Proof.
  intros Hr. unfold aggregate.
  rewrite aggregation_loop_index by (simpl; lia). simpl. lia.
Qed.

(** C2. After the aggregation loop has processed any sequence of results,
    and after every prefix of it, the values of [StatusCodes] add up to
    [TotalRequests], [SuccessRequests] is the entry of [StatusCodes] at
    200 (zero when the key is absent), and so [TotalRequests] is
    [SuccessRequests] plus the sum of the entries at the other codes. *)
Theorem aggregation_counts_invariant (requests : Z) (results : list Result)
    (k : nat) :
  requests <= GoInt.int_max ->
  let report := agg_report (aggregate requests (take k results)) in
  map_sum (StatusCodes report) = TotalRequests report
  /\ SuccessRequests report = default 0 (StatusCodes report !! 200)
  /\ TotalRequests report
     = SuccessRequests report + map_sum (non_200 (StatusCodes report)).
Proof.
  intros Hr report.
  destruct (aggregate_ok requests (take k results) Hr) as [_ Hrep _].
  destruct Hrep as [Htot Hsum _ Hsucc]. fold report in Htot, Hsum, Hsucc.
  split; [congruence|]. split; [done|].
  rewrite Hsucc, <- map_sum_split_200. congruence.
Qed.

Lemma aggregation_counts_invariant_witness :
  let rs := [mkResult 200 5 None; mkResult 0 1 (Some "refused");
             mkResult 404 2 None] in
  let report := agg_report (aggregate 3 (take 2 rs)) in
  3 <= GoInt.int_max /\ map_sum (StatusCodes report) = TotalRequests report.
Proof.
  intros rs report.
  assert (H : 3 <= GoInt.int_max) by (vm_compute; discriminate).
  split; [exact H|].
  exact (proj1 (aggregation_counts_invariant 3 rs 2 H)).
Defined.

(** C3. For each result the loop consumes: [TotalRequests] goes up by
    one; with an error present the entry of [StatusCodes] at 0 goes up by
    one; without, the entry at the result's status code goes up by one
    and, when that code is 200, so does [SuccessRequests]; every other
    entry of [StatusCodes], [SuccessRequests] in the other cases, and
    [TotalTime] stay as they were. *)
Theorem aggregator_updates (requests : Z) (results : list Result)
    (result : Result) :
  requests <= GoInt.int_max ->
  agg_i (aggregate requests results) < requests ->
  let before := agg_report (aggregate requests results) in
  let after :=
    agg_report (agg_iter requests result (aggregate requests results)) in
  let entry (report : Report) (k : Z) :=
    default 0 (StatusCodes report !! k) in
  TotalRequests after = TotalRequests before + 1
  /\ TotalTime after = TotalTime before
  /\ match Error result with
     | Some _ =>
         entry after 0 = entry before 0 + 1
         /\ (forall k, k <> 0 ->
               StatusCodes after !! k = StatusCodes before !! k)
         /\ SuccessRequests after = SuccessRequests before
     | None =>
         entry after (StatusCode result)
           = entry before (StatusCode result) + 1
         /\ (forall k, k <> StatusCode result ->
               StatusCodes after !! k = StatusCodes before !! k)
         /\ SuccessRequests after =
              if decide (StatusCode result = 200)
              then SuccessRequests before + 1
              else SuccessRequests before
     end.
Proof.
  intros Hr Hlt before after entry.
  destruct (aggregate_ok requests results Hr) as [Hi Hrep _].
  fold before in Hrep.
  set (n := agg_i (aggregate requests results)) in *.
  assert (Hn : 0 <= n < GoInt.int_max) by lia.
  pose proof (report_ok_entry n before (counted_under result) Hrep) as Hent.
  pose proof (report_ok_entry n before 200 Hrep) as H200.
  destruct Hrep as [Htot _ _ Hsucc].
  assert (Hcodes : forall k, StatusCodes after !! k =
            if decide (k = counted_under result)
            then Some (default 0 (StatusCodes before !! counted_under result) + 1)
            else StatusCodes before !! k).
  { intros k. unfold after. simpl.
    rewrite record_result_codes, map_incr_lookup.
    case_decide; [|done]. f_equal. apply succ_small. lia. }
  split; [|split].
  - unfold after. simpl. rewrite record_result_total. apply succ_small.
    fold before. lia.
  - unfold after. simpl. apply record_result_time.
  - unfold counted_under in *.
    assert (Hs : SuccessRequests after =
              if counts_as_success result
              then SuccessRequests before + 1 else SuccessRequests before).
    { unfold after. simpl. rewrite record_result_success.
      destruct (counts_as_success result); [|done].
      apply succ_small. fold before. rewrite Hsucc. lia. }
    unfold counts_as_success in Hs.
    destruct (Error result) as [err|].
    + split; [|split].
      * unfold entry. rewrite Hcodes, decide_True by done. done.
      * intros k Hk. rewrite Hcodes, decide_False by done. done.
      * done.
    + split; [|split].
      * unfold entry. rewrite Hcodes, decide_True by done. done.
      * intros k Hk. rewrite Hcodes, decide_False by done. done.
      * rewrite Hs. destruct (Z.eqb_spec (StatusCode result) 200);
          by case_decide.
Qed.

Lemma aggregator_updates_witness :
  let rs := [mkResult 200 5 None] in
  let r := mkResult 200 7 None in
  3 <= GoInt.int_max /\ agg_i (aggregate 3 rs) < 3
  /\ TotalRequests (agg_report (agg_iter 3 r (aggregate 3 rs)))
     = TotalRequests (agg_report (aggregate 3 rs)) + 1.
Proof.
  intros rs r.
  assert (H : 3 <= GoInt.int_max) by (vm_compute; discriminate).
  assert (Hlt : agg_i (aggregate 3 rs) < 3) by (vm_compute; reflexivity).
  split; [exact H|]. split; [exact Hlt|].
  exact (proj1 (aggregator_updates 3 rs r H Hlt)).
Defined.




Example progress_line_format :
  progress_line 100 250 = "Progress: 100/250 requests completed" +:+ newline.
Proof. reflexivity. Qed.

Example progress_every_hundred :
  agg_out (aggregate 250 (replicate 250 (mkResult 200 1 None)))
  = [progress_line 100 250; progress_line 200 250; progress_line 250 250].
Proof. vm_compute. reflexivity. Qed.

(** C10. In the aggregation loop the error decides before the status
    code: a result whose [Error] is non-nil increments the entry of
    [StatusCodes] at 0 and leaves [SuccessRequests] and every other entry
    alone, whatever its [StatusCode], 200 included. *)
Theorem error_takes_precedence (result : Result) (report : Report) :
  Error result <> None ->
  StatusCodes (record_result result report)
    = map_incr 0 (StatusCodes report)
  /\ SuccessRequests (record_result result report) = SuccessRequests report
  /\ (forall k, k <> 0 ->
        StatusCodes (record_result result report) !! k
          = StatusCodes report !! k).
Proof.
  intros Herr. unfold record_result.
  destruct (Error result) as [err|]; [|done]. simpl.
  split; [done|]. split; [done|].
  intros k Hk. rewrite map_incr_lookup. by rewrite decide_False.
Qed.

Lemma error_takes_precedence_witness :
  let r := mkResult 200 5 (Some "timeout") in
  Error r <> None
  /\ SuccessRequests (record_result r empty_report) = 0
  /\ StatusCodes (record_result r empty_report) !! 0 = Some 1
  /\ StatusCodes (record_result r empty_report) !! 200 = None.
Proof.
  intros r.
  assert (H : Error r <> None) by (simpl; discriminate).
  destruct (error_takes_precedence r empty_report H) as (Hc & Hs & Ho).
  split; [exact H|]. split; [exact Hs|]. split.
  - rewrite Hc. vm_compute. reflexivity.
  - rewrite (Ho 200); [reflexivity | discriminate].
Defined.

(** ** Results made by a worker *)

(** The claim of C4 as the data model words it fails for a response
    whose status code is 0: no error, and yet [StatusCode] is 0. *)
Lemma error_iff_status_zero_fails :
  ~ (forall (o : HttpOutcome) (elapsed : Z),
       Error (worker_result o elapsed) <> None
       <-> StatusCode (worker_result o elapsed) = 0).
Proof.
  intros H. destruct (H (Response 0) 5) as [_ Hback].
  apply Hback; reflexivity.
Qed.

(** C4, amended. For every result a worker makes, an error is present
    exactly when no response was obtained (the request could not be built
    or the client failed); a present error comes with [StatusCode] 0, and
    a result with [StatusCode] 0 and no error comes only from a response
    whose own status code is 0. *)
Theorem error_implies_status_zero (o : HttpOutcome) (elapsed : Z) :
  let r := worker_result o elapsed in
  (Error r <> None <-> forall status, o <> Response status)
  /\ (Error r <> None -> StatusCode r = 0)
  /\ (StatusCode r = 0 -> Error r <> None \/ o = Response 0)
  /\ Duration r = elapsed.
Proof.
  destruct o as [err|err|status]; simpl.
  - split; [split; [discriminate | discriminate]|].
    split; [done|]. split; [left; discriminate | done].
  - split; [split; [discriminate | discriminate]|].
    split; [done|]. split; [left; discriminate | done].
  - split.
    { split; [done|]. intros H. by destruct (H status). }
    split; [done|]. split; [intros ->; by right | done].
Qed.

(** ** [parseFlags] and [main] *)

Lemma parseFlags_error flags err :
  parseFlags flags = inl err -> rejected flags.
Proof.
  unfold parseFlags, rejected. case_decide as Hu; [tauto|].
  destruct (Z.leb_spec (Requests flags) 0); [tauto|].
  destruct (Z.leb_spec (Concurrency flags) 0); [tauto|].
  destruct (Concurrency flags >? Requests flags); discriminate.
Qed.

Lemma parseFlags_accepts flags :
  ~ rejected flags ->
  parseFlags flags =
    inr (mkConfig (URL flags) (Requests flags)
           (Z.min (Concurrency flags) (Requests flags))).
Proof.
  unfold parseFlags, rejected. intros Hok.
  rewrite decide_False by tauto.
  destruct (Z.leb_spec (Requests flags) 0); [tauto|].
  destruct (Z.leb_spec (Concurrency flags) 0); [tauto|].
  destruct (Z.gtb_spec (Concurrency flags) (Requests flags)).
  - by rewrite Z.min_r by lia.
  - rewrite Z.min_l by lia. by destruct flags.
Qed.

Lemma parseFlags_rejects flags :
  rejected flags -> exists err, parseFlags flags = inl err.
Proof.
  intros Hrej. destruct (parseFlags flags) as [err|config] eqn:Hp; [eauto|].
  exfalso. revert Hp. unfold parseFlags, rejected in *.
  case_decide; [discriminate|].
  destruct (Z.leb_spec (Requests flags) 0); [discriminate|].
  destruct (Z.leb_spec (Concurrency flags) 0); [discriminate|].
  destruct Hrej as [?|[?|?]]; [done | lia | lia].
Qed.

(** C5. [parseFlags] returns an error exactly when the URL is empty or
    the request count or the concurrency is not positive; [main] then
    exits with that error and no run exists: no worker started, no ticket
    produced, no state in which a request could be made. Otherwise
    [parseFlags] returns a configuration, and the run starts from it. *)
Theorem parseFlags_validation (flags : Config) :
  ((exists err, parseFlags flags = inl err) <-> rejected flags)
  /\ (forall err, parseFlags flags = inl err ->
        main_start flags = Exit1 err
        /\ run_of (main_start flags) = None
        /\ workers_started (main_start flags) = 0%nat
        /\ tickets_produced (main_start flags) = [])
  /\ (~ rejected flags ->
        exists config, parseFlags flags = inr config
          /\ main_start flags = Running config (init config)).
Proof.
  split; [split|split].
  - intros [err Herr]. by apply parseFlags_error in Herr.
  - apply parseFlags_rejects.
  - intros err Herr. unfold main_start. by rewrite Herr.
  - intros Hok. eexists. split; [by apply parseFlags_accepts|].
    unfold main_start. by rewrite parseFlags_accepts.
Qed.

Example parseFlags_zero_requests :
  parseFlags (mkConfig "http://localhost" 0 5) = inl err_requests.
Proof. reflexivity. Qed.

Example parseFlags_zero_concurrency :
  parseFlags (mkConfig "http://localhost" 5 0) = inl err_concurrency.
Proof. reflexivity. Qed.

Example parseFlags_clamps :
  parseFlags (mkConfig "http://localhost" 1 5)
  = inr (mkConfig "http://localhost" 1 1).
Proof. reflexivity. Qed.

(** ** The run of [runLoadTest]: invariants of the reachable states *)

Section Invariants.

Variable config : Config.
Hypothesis Hvalid : valid_config config.

Lemma pool_sum_app f p q : pool_sum f (p ++ q) = pool_sum f p + pool_sum f q.
Proof. unfold pool_sum. induction p as [|w p IH]; simpl; lia. Qed.

Lemma pool_sum_insert f (p : list Worker) idx w w' :
  p !! idx = Some w ->
  pool_sum f (<[idx := w']> p) = pool_sum f p - f w + f w'.
Proof.
  unfold pool_sum. revert idx.
  induction p as [|x p IH]; intros [|idx] Hl; simplify_eq/=; [lia|].
  rewrite (IH idx Hl). lia.
Qed.

Lemma pool_sum_nonneg f p : (forall w, 0 <= f w) -> 0 <= pool_sum f p.
Proof.
  intros Hf. unfold pool_sum. induction p as [|w p IH]; simpl; [lia|].
  specialize (Hf w). lia.
Qed.

Lemma busy_nonneg p : 0 <= busy p.
Proof. apply pool_sum_nonneg. intros w. by destruct (in_flight w). Qed.

Lemma pool_rank_nonneg p : 0 <= pool_rank p.
Proof. apply pool_sum_nonneg. intros w. by destruct w. Qed.

Lemma busy_replicate n : busy (replicate n WSelect) = 0.
Proof. unfold busy, pool_sum. induction n; simpl; lia. Qed.

Lemma busy_all_returned p : all_returned p -> busy p = 0.
Proof.
  unfold busy, pool_sum. induction 1 as [|w p -> _ IH]; simpl; lia.
Qed.

Lemma busy_positive p :
  0 < busy p -> exists idx w, p !! idx = Some w /\ in_flight w = true.
Proof.
  unfold busy, pool_sum. induction p as [|w p IH]; simpl; [lia|].
  destruct (in_flight w) eqn:Hw.
  - intros _. exists 0%nat, w. by split.
  - intros Hp. destruct IH as (idx & x & Hidx & Hx); [lia|].
    exists (S idx), x. by split.
Qed.

Lemma idle_worker p :
  busy p = 0 -> ~ all_returned p ->
  exists idx, p !! idx = Some WSelect.
Proof.
  unfold busy, pool_sum, all_returned.
  induction p as [|w p IH]; simpl; intros Hb Hn.
  - destruct Hn. constructor.
  - pose proof (busy_nonneg p) as Hp. unfold busy, pool_sum in Hp.
    destruct w; simpl in Hb; try lia.
    + by exists 0%nat.
    + destruct IH as [idx Hidx]; [lia | |by exists (S idx)].
      intros Hall. apply Hn. by constructor.
Qed.

Lemma forallb_is_returned p :
  forallb is_returned p = true <-> all_returned p.
Proof.
  unfold all_returned. rewrite forallb_forall, Forall_forall.
  split; intros H w Hw.
  - apply list_elem_of_In in Hw. specialize (H w Hw). by destruct w.
  - apply list_elem_of_In in Hw. by rewrite (H w Hw).
Qed.

Lemma agg_ok_set_total_time requests t a :
  agg_ok requests a -> agg_ok requests (set_total_time t a).
Proof. intros [Hi [? ? ? ?] Ho]. split; [done | by split | done]. Qed.

Lemma ticket_range_0 : ticket_range 0 = [].
Proof. reflexivity. Qed.

Lemma ticket_range_succ i :
  0 <= i -> ticket_range (i + 1) = ticket_range i ++ [i].
Proof.
  intros Hi. unfold ticket_range.
  replace (Z.to_nat (i + 1)) with (S (Z.to_nat i)) by lia.
  rewrite seq_S, fmap_app. simpl. do 2 f_equal. lia.
Qed.

Lemma ticket_range_length i :
  0 <= i -> Z.of_nat (length (ticket_range i)) = i.
Proof.
  intros Hi. unfold ticket_range. rewrite length_fmap, length_seq. lia.
Qed.

Lemma inv_init : inv config (init config).
Proof.
  destruct Hvalid as (_ & Hr & Hc).
  split; simpl; try done.
  - unfold main_inv. simpl. repeat split; try done; lia.
  - intros H. by apply elem_of_nil in H.
Qed.

Lemma elem_of_insert_inv (p : list Worker) idx w x :
  x ∈ <[idx := w]> p -> x = w \/ x ∈ p.
Proof.
  intros Hx. apply list_elem_of_lookup in Hx as [j Hj].
  apply list_lookup_insert_Some in Hj as [(_ & -> & _)|[_ Hj]].
  - by left.
  - right. by apply list_elem_of_lookup_2 in Hj.
Qed.

Lemma all_returned_lookup p idx w :
  all_returned p -> p !! idx = Some w -> w = WReturned.
Proof. intros Hall Hl. exact (Forall_lookup_1 _ _ _ _ Hall Hl). Qed.

Lemma inv_main_step now s s' :
  inv config s -> main_step config now s = Some s' -> inv config s'.
Proof.
  destruct Hvalid as (_ & Hr & Hc).
  destruct s as [cd jb rs pl pr mn pk ts sent].
  intros [Hpk Hjc Hrc Hprod Hmain Hpool Htick Hres Hret Hwf Hsent].
  unfold producer_inv, main_inv in *. simpl in *.
  unfold main_step. simpl.
  destruct mn as [i|a|a|a|a|a]; simpl in *.
  - (* the spawn loop *)
    destruct Hmain as (Hi & Hpl & -> & -> & Hrcl).
    destruct (Z.ltb_spec i (Concurrency config)) as [Hlt|Hge];
      intros [= <-].
    + rewrite (succ_below i (Concurrency config)) by lia.
      split; simpl; try done.
      * unfold main_inv. simpl. repeat split; try done; try lia.
        replace (Z.to_nat (i + 1)) with (S (Z.to_nat i)) by lia.
        by rewrite replicate_S_end, Hpl.
      * unfold busy in *. rewrite pool_sum_app. simpl. lia.
      * intros Hin. apply elem_of_app in Hin as [Hin|Hin]; [auto|].
        by apply list_elem_of_singleton in Hin.
      * apply Forall_app. split; [done|]. by repeat constructor.
    + split; simpl; try done.
      * unfold producer_inv. simpl. destruct Hprod as [-> Hcl].
        repeat split; try done; lia.
      * unfold main_inv. simpl. split; [apply agg_ok_init | done].
      * intros _. rewrite Hpl, length_replicate. lia.
  - (* the aggregation loop *)
    destruct Hmain as (Hok & Hpr & -> & Hrcl).
    destruct (Z.ltb_spec (agg_i a) (Requests config)) as [Hlt|Hge].
    + unfold chan_recv. destruct rs as [[|r rest] rcap rclosed]; simpl in *.
      * subst rclosed. discriminate.
      * intros [= <-].
        pose proof (ok_index _ _ Hok) as Hidx.
        split; simpl; try done.
        -- unfold main_inv. simpl.
           split; [apply agg_iter_ok; [lia | lia | done] | done].
        -- rewrite (succ_below (agg_i a) (Requests config)) by lia. lia.
    + intros [= <-].
      pose proof (ok_index _ _ Hok) as Hidx.
      split; simpl; try done.
      unfold main_inv. simpl.
      split; [by apply agg_ok_set_total_time|]. split; [lia | done].
  - (* cancel() *)
    intros [= <-]. destruct Hmain as (Hok & Hi & Hpr & _ & Hrcl).
    split; simpl; try done. intros _. by left.
  - (* wg.Wait() *)
    destruct (forallb is_returned pl) eqn:Hall; [|discriminate].
    intros [= <-]. destruct Hmain as (Hok & Hi & Hpr & Hcd & Hrcl).
    apply forallb_is_returned in Hall.
    split; simpl; try done.
  - (* close(results) *)
    destruct Hmain as (Hok & Hi & Hpr & Hcd & Hrcl & Hall).
    unfold chan_close. rewrite Hrcl. intros [= <-].
    split; simpl; try done.
  - discriminate.
Qed.

Lemma inv_producer_step s s' :
  inv config s -> producer_step config s = Some s' -> inv config s'.
Proof.
  destruct Hvalid as (_ & Hr & Hc).
  destruct s as [cd jb rs pl pr mn pk ts sent].
  intros [Hpk Hjc Hrc Hprod Hmain Hpool Htick Hres Hret Hwf Hsent].
  unfold producer_inv in *. simpl in *.
  unfold producer_step. simpl.
  destruct pr as [|i|]; [discriminate| |discriminate].
  destruct Hprod as (Hi & Hts & Hcl).
  assert (Hmain' : forall jb' pr', pr' <> PNotStarted ->
            main_inv config (mkState cd jb' rs pl pr' mn pk ts sent)
            /\ forall ts', main_inv config (mkState cd jb' rs pl pr' mn pk ts' sent)).
  { intros jb' pr' Hpr'. unfold main_inv in *. simpl in *.
    destruct mn; try (split; [|intros ts']; tauto).
    destruct Hmain as (_ & _ & [=] & _). }
  destruct (Z.ltb_spec i (Requests config)) as [Hlt|Hge].
  - unfold chan_send. rewrite Hcl.
    destruct (Z.ltb_spec (Z.of_nat (length (chan_buf jb))) (chan_cap jb));
      [|discriminate].
    intros [= <-]. rewrite (succ_below i (Requests config)) by lia.
    split; simpl; try done.
    + unfold producer_inv. simpl.
      rewrite ticket_range_succ, Hts by lia. repeat split; try done; lia.
    + by apply Hmain'.
    + rewrite !length_app. simpl. lia.
    + intros Hin. destruct (Hret Hin) as [?|[? ?]]; [by left | congruence].
  - unfold chan_close. rewrite Hcl. intros [= <-].
    assert (i = Requests config) as -> by lia.
    split; simpl; try done.
    + by apply Hmain'.
    + intros Hin. destruct (Hret Hin) as [?|[? ?]]; [by left | congruence].
Qed.

Lemma main_inv_frame s s' :
  aggregating (main s) = true ->
  main s' = main s -> ctx_done s' = ctx_done s ->
  producer s' = producer s ->
  chan_closed (results s') = chan_closed (results s) ->
  main_inv config s -> main_inv config s' /\ chan_closed (results s) = false.
Proof.
  unfold main_inv. intros Hagg -> -> -> ->.
  destruct (main s); try discriminate; tauto.
Qed.

Lemma returned_no_step act s : worker_step act WReturned s = None.
Proof. by destruct act. Qed.

Lemma spawning_no_worker_step act idx w s i :
  inv config s -> main s = MSpawn i -> pool s !! idx = Some w ->
  worker_step act w s = None.
Proof.
  intros [_ _ _ Hprod Hmain _ Htick _ _ _ _] Hm Hidx.
  unfold main_inv, producer_inv in *. rewrite Hm in Hmain.
  destruct Hmain as (_ & Hpl & Hpr & Hcd & _).
  rewrite Hpr in Hprod. destruct Hprod as [Hts Hcl].
  rewrite Hpl in Hidx. apply lookup_replicate in Hidx as [-> _].
  rewrite Hts in Htick. simpl in Htick.
  pose proof (busy_nonneg (pool s)).
  assert (Hbuf : chan_buf (jobs s) = []).
  { destruct (chan_buf (jobs s)); [done|]. simpl in Htick. lia. }
  destruct act; simpl; try done.
  - by rewrite Hcd.
  - unfold chan_recv. by rewrite Hbuf, Hcl.
Qed.

Lemma inv_worker_step act idx w s w' s' :
  inv config s -> pool s !! idx = Some w ->
  worker_step act w s = Some (w', s') ->
  inv config (set_pool (<[idx := w']> (pool s')) s').
Proof.
  intros Hinv Hidx Hstep.
  assert (Hagg : aggregating (main s) = true).
  { destruct (main s) as [i|a|a|a|a|a] eqn:Hm; try done.
    - by rewrite (spawning_no_worker_step act idx w s i) in Hstep.
    - destruct Hinv as [_ _ _ _ Hmain _ _ _ _ _ _].
      unfold main_inv in Hmain. rewrite Hm in Hmain.
      destruct Hmain as (_ & _ & _ & _ & _ & Hall).
      rewrite (all_returned_lookup _ _ _ Hall Hidx) in Hstep.
      by rewrite returned_no_step in Hstep.
    - destruct Hinv as [_ _ _ _ Hmain _ _ _ _ _ _].
      unfold main_inv in Hmain. rewrite Hm in Hmain.
      destruct Hmain as (_ & _ & _ & _ & _ & Hall).
      rewrite (all_returned_lookup _ _ _ Hall Hidx) in Hstep.
      by rewrite returned_no_step in Hstep. }
  destruct Hinv as
    [Hpk Hjc Hrc Hprod Hmain Hpool Htick Hres Hret Hwf Hsent].
  assert (Hw : worker_wf w) by exact (Forall_lookup_1 _ _ _ _ Hwf Hidx).
  assert (Hframe : forall s2, main s2 = main s ->
            ctx_done s2 = ctx_done s -> producer s2 = producer s ->
            chan_closed (results s2) = chan_closed (results s) ->
            main_inv config s2).
  { intros s2 H1 H2 H3 H4.
    by destruct (main_inv_frame s s2 Hagg H1 H2 H3 H4 Hmain). }
  assert (Hopen : chan_closed (results s) = false).
  { by destruct (main_inv_frame s s Hagg eq_refl eq_refl eq_refl eq_refl
                   Hmain). }
  assert (Hlen : forall x, length (<[idx := x]> (pool s)) = length (pool s))
    by (intros; apply length_insert).
  assert (Hbusy : forall x, busy (<[idx := x]> (pool s)) =
            busy (pool s) - (if in_flight w then 1 else 0)
            + (if in_flight x then 1 else 0)).
  { intros x. unfold busy. by rewrite (pool_sum_insert _ _ _ w). }
  unfold producer_inv in *.
  destruct s as [cd jb rs pl pr mn pk ts sent]. simpl in *.
  destruct w as [| | |r|], act as [| |[err|] d|[err|status] d|];
    simpl in Hstep; try discriminate.
  - (* select takes ctx.Done() *)
    destruct cd; [|discriminate]. injection Hstep as <- <-.
    split; simpl; try done.
    + by apply Hframe.
    + by rewrite Hlen.
    + rewrite Hbusy. simpl. lia.
    + intros _. by left.
    + by apply Forall_insert.
  - (* select takes a ticket, or finds the channel closed *)
    unfold chan_recv in Hstep.
    destruct jb as [[|t rest] jcap jclosed]; simpl in *.
    + destruct jclosed; [|discriminate]. injection Hstep as <- <-.
      split; simpl; try done.
      * by apply Hframe.
      * by rewrite Hlen.
      * rewrite Hbusy. simpl. lia.
      * intros _. by right.
      * by apply Forall_insert.
    + injection Hstep as <- <-.
      split; simpl; try done.
      * by apply Hframe.
      * by rewrite Hlen.
      * rewrite Hbusy. simpl. lia.
      * intros Hin. apply elem_of_insert_inv in Hin as [?|Hin]; [done|].
        destruct (Hret Hin) as [?|[_ ?]]; [by left | done].
      * by apply Forall_insert.
  - (* the request cannot be built *)
    injection Hstep as <- <-.
    split; simpl; try done.
    + by apply Hframe.
    + by rewrite Hlen.
    + rewrite Hbusy. simpl. lia.
    + intros Hin. apply elem_of_insert_inv in Hin as [?|Hin]; [done|auto].
    + apply Forall_insert; [done|]. by exists (RequestBuildFailed err), d.
  - (* the request is built *)
    injection Hstep as <- <-.
    split; simpl; try done.
    + by apply Hframe.
    + by rewrite Hlen.
    + rewrite Hbusy. simpl. lia.
    + intros Hin. apply elem_of_insert_inv in Hin as [?|Hin]; [done|auto].
    + by apply Forall_insert.
  - (* client.Do fails *)
    injection Hstep as <- <-.
    split; simpl; try done.
    + by apply Hframe.
    + by rewrite Hlen.
    + rewrite Hbusy. simpl. lia.
    + intros Hin. apply elem_of_insert_inv in Hin as [?|Hin]; [done|auto].
    + apply Forall_insert; [done|]. by exists (ClientError err), d.
  - (* client.Do returns a response *)
    injection Hstep as <- <-.
    split; simpl; try done.
    + by apply Hframe.
    + by rewrite Hlen.
    + rewrite Hbusy. simpl. lia.
    + intros Hin. apply elem_of_insert_inv in Hin as [?|Hin]; [done|auto].
    + apply Forall_insert; [done|]. by exists (Response status), d.
  - (* the result is sent *)
    unfold chan_send in Hstep. rewrite Hopen in Hstep.
    destruct (Z.ltb_spec (Z.of_nat (length (chan_buf rs))) (chan_cap rs));
      [|discriminate].
    injection Hstep as <- <-.
    split; simpl; try done.
    + by apply Hframe.
    + by rewrite Hlen.
    + rewrite Hbusy, length_app. simpl. lia.
    + rewrite !length_app. simpl. lia.
    + intros Hin. apply elem_of_insert_inv in Hin as [?|Hin]; [done|auto].
    + by apply Forall_insert.
    + apply Forall_app. split; [done|]. by repeat constructor.
Qed.

Lemma inv_step a s s' : inv config s -> do_action config a s = Some s' -> inv config s'.
Proof.
  intros Hinv. unfold do_action.
  destruct (panicked s); [discriminate|].
  destruct a as [now| |idx act].
  - by apply inv_main_step.
  - by apply inv_producer_step.
  - destruct (pool s !! idx) as [w|] eqn:Hidx; [|discriminate].
    destruct (worker_step act w s) as [[w' s2]|] eqn:Hstep; [|discriminate].
    intros [= <-]. by eapply inv_worker_step.
Qed.

Lemma reachable_inv s : reachable config s -> inv config s.
Proof.
  induction 1 as [|s a s' _ IH Hstep]; [apply inv_init|].
  by eapply inv_step.
Qed.

(** *** No send on a closed channel *)

Lemma tickets_bound s :
  inv config s -> Z.of_nat (length (tickets_sent s)) <= Requests config.
Proof.
  destruct Hvalid as (_ & Hr & _).
  intros [_ _ _ Hprod _ _ _ _ _ _ _]. unfold producer_inv in Hprod.
  destruct (producer s) as [|i|].
  - destruct Hprod as [-> _]. simpl. lia.
  - destruct Hprod as (Hi & -> & _). rewrite ticket_range_length; lia.
  - destruct Hprod as [-> _]. rewrite ticket_range_length; lia.
Qed.

Lemma live_worker_open idx w s :
  inv config s -> pool s !! idx = Some w -> in_flight w = true ->
  chan_closed (results s) = false /\ aggregating (main s) = true.
Proof.
  intros Hinv Hidx Hw. pose proof (inv_main _ _ Hinv) as Hmain.
  unfold main_inv in Hmain.
  destruct (main s) as [i|a|a|a|a|a]; simpl.
  - destruct Hmain as (_ & Hpl & _). rewrite Hpl in Hidx.
    apply lookup_replicate in Hidx as [-> _]. done.
  - tauto.
  - tauto.
  - tauto.
  - destruct Hmain as (_ & _ & _ & _ & _ & Hall).
    by rewrite (all_returned_lookup _ _ _ Hall Hidx) in Hw.
  - destruct Hmain as (_ & _ & _ & _ & _ & Hall).
    by rewrite (all_returned_lookup _ _ _ Hall Hidx) in Hw.
Qed.

Lemma results_have_room s :
  inv config s -> 0 < busy (pool s) ->
  Z.of_nat (length (chan_buf (results s))) < chan_cap (results s).
Proof.
  intros Hinv Hb. pose proof (tickets_bound s Hinv) as Hts.
  destruct Hinv as [_ _ Hrc _ Hmain _ Htick Hres _ _ _].
  rewrite Hrc.
  assert (0 <= collected (main s)); [|lia].
  unfold main_inv in Hmain.
  destruct (main s); simpl; try lia;
    destruct Hmain as [[? _ _] _]; lia.
Qed.

Lemma jobs_have_room s i :
  inv config s -> producer s = PLoop i -> i < Requests config ->
  Z.of_nat (length (chan_buf (jobs s))) < chan_cap (jobs s).
Proof.
  intros Hinv Hp Hi.
  pose proof (busy_nonneg (pool s)) as Hb.
  destruct Hinv as [_ Hjc _ Hprod _ _ Htick _ _ _ _].
  unfold producer_inv in Hprod. rewrite Hp in Hprod.
  destruct Hprod as (Hi0 & Hts & _).
  rewrite Hts, ticket_range_length in Htick by lia. lia.
Qed.

(** *** Every step makes the measure smaller *)

Lemma measure_nonneg s : inv config s -> 0 <= measure config s.
Proof.
  destruct Hvalid as (_ & Hr & Hc).
  intros [_ _ _ Hprod Hmain _ _ _ _ _ _].
  unfold measure, producer_inv, main_inv in *.
  pose proof (pool_rank_nonneg (pool s)).
  assert (0 <= main_rank config (main s)).
  { destruct (main s); simpl; try lia;
      destruct Hmain as [[? _ _] _]; lia. }
  assert (0 <= producer_rank config (producer s)).
  { destruct (producer s); simpl; lia. }
  lia.
Qed.

Lemma measure_main_step now s s' :
  inv config s -> main_step config now s = Some s' ->
  measure config s' < measure config s.
Proof.
  destruct Hvalid as (_ & Hr & Hc).
  destruct s as [cd jb rs pl pr mn pk ts sent].
  intros [Hpk Hjc Hrc Hprod Hmain Hpool Htick Hres Hret Hwf Hsent].
  unfold producer_inv, main_inv, main_step, measure in *. simpl in *.
  destruct mn as [i|a|a|a|a|a]; simpl in *.
  - destruct Hmain as (Hi & Hpl & -> & -> & Hrcl).
    destruct (Z.ltb_spec i (Concurrency config)) as [Hlt|Hge];
      intros [= <-]; simpl.
    + rewrite (succ_below i (Concurrency config)) by lia.
      unfold pool_rank. rewrite pool_sum_app. simpl. lia.
    + lia.
  - destruct Hmain as ([Hidx _ _] & _).
    destruct (Z.ltb_spec (agg_i a) (Requests config)) as [Hlt|Hge].
    + unfold chan_recv.
      destruct (chan_buf rs) as [|r rest]; [destruct (chan_closed rs)|];
        intros [= <-]; simpl;
        rewrite (succ_below (agg_i a) (Requests config)) by lia; lia.
    + intros [= <-]. simpl. lia.
  - intros [= <-]. simpl. lia.
  - destruct (forallb is_returned pl); intros [= <-]. simpl. lia.
  - destruct Hmain as (_ & _ & _ & _ & Hrcl & _).
    unfold chan_close. rewrite Hrcl. intros [= <-]. simpl. lia.
  - discriminate.
Qed.

Lemma measure_producer_step s s' :
  inv config s -> producer_step config s = Some s' ->
  measure config s' < measure config s.
Proof.
  destruct Hvalid as (_ & Hr & Hc).
  destruct s as [cd jb rs pl pr mn pk ts sent].
  intros [Hpk Hjc Hrc Hprod Hmain Hpool Htick Hres Hret Hwf Hsent].
  unfold producer_inv, producer_step, measure in *. simpl in *.
  destruct pr as [|i|]; [discriminate| |discriminate].
  destruct Hprod as (Hi & Hts & Hcl).
  destruct (Z.ltb_spec i (Requests config)) as [Hlt|Hge].
  - unfold chan_send. rewrite Hcl.
    destruct (Z.of_nat (length (chan_buf jb)) <? chan_cap jb);
      intros [= <-]; simpl.
    rewrite (succ_below i (Requests config)) by lia.
    rewrite length_app. simpl. lia.
  - unfold chan_close. rewrite Hcl. intros [= <-]. simpl. lia.
Qed.

Lemma measure_worker_step act idx w s w' s' :
  inv config s -> pool s !! idx = Some w ->
  worker_step act w s = Some (w', s') ->
  measure config (set_pool (<[idx := w']> (pool s')) s')
    < measure config s.
Proof.
  intros Hinv Hidx Hstep.
  assert (Hrank : forall x, pool_rank (<[idx := x]> (pool s)) =
            pool_rank (pool s) - worker_rank w + worker_rank x).
  { intros x. unfold pool_rank. by rewrite (pool_sum_insert _ _ _ w). }
  assert (Hopen : in_flight w = true -> chan_closed (results s) = false).
  { intros Hw. by destruct (live_worker_open idx w s Hinv Hidx Hw). }
  unfold measure.
  destruct s as [cd jb rs pl pr mn pk ts sent]. simpl in *.
  destruct w as [| | |r|], act as [| |[err|] d|[err|status] d|];
    simpl in Hstep; try discriminate.
  - destruct cd; [|discriminate]. injection Hstep as <- <-. simpl.
    rewrite Hrank. simpl. lia.
  - unfold chan_recv in Hstep.
    destruct jb as [[|t rest] jcap [|]]; simpl in *; try discriminate;
      injection Hstep as <- <-; simpl; rewrite Hrank; simpl; lia.
  - injection Hstep as <- <-. simpl. rewrite Hrank. simpl. lia.
  - injection Hstep as <- <-. simpl. rewrite Hrank. simpl. lia.
  - injection Hstep as <- <-. simpl. rewrite Hrank. simpl. lia.
  - injection Hstep as <- <-. simpl. rewrite Hrank. simpl. lia.
  - unfold chan_send in Hstep. rewrite Hopen in Hstep by done.
    destruct (Z.of_nat (length (chan_buf rs)) <? chan_cap rs);
      [|discriminate].
    injection Hstep as <- <-. simpl. rewrite Hrank. simpl. lia.
Qed.

Lemma measure_step a s s' :
  inv config s -> do_action config a s = Some s' ->
  0 <= measure config s' < measure config s.
Proof.
  intros Hinv Hstep.
  split; [apply measure_nonneg; by eapply inv_step|].
  revert Hstep. unfold do_action.
  destruct (panicked s); [discriminate|].
  destruct a as [now| |idx act].
  - by apply measure_main_step.
  - by apply measure_producer_step.
  - destruct (pool s !! idx) as [w|] eqn:Hidx; [|discriminate].
    destruct (worker_step act w s) as [[w' s2]|] eqn:Hstep; [|discriminate].
    intros [= <-]. by eapply measure_worker_step.
Qed.

(** *** Some goroutine can always move until [runLoadTest] returns *)

Lemma producer_never_blocks s i :
  inv config s -> producer s = PLoop i ->
  exists s', do_action config ActProducer s = Some s'.
Proof.
  intros Hinv Hp. unfold do_action, producer_step.
  rewrite (inv_nopanic _ _ Hinv), Hp.
  pose proof (inv_producer _ _ Hinv) as Hprod.
  unfold producer_inv in Hprod. rewrite Hp in Hprod.
  destruct Hprod as (_ & _ & Hcl).
  destruct (Z.ltb_spec i (Requests config)) as [Hlt|Hge].
  - pose proof (jobs_have_room s i Hinv Hp Hlt) as Hroom.
    unfold chan_send. rewrite Hcl.
    apply Z.ltb_lt in Hroom. rewrite Hroom. eauto.
  - unfold chan_close. rewrite Hcl. eauto.
Qed.

Lemma busy_worker_moves s idx w :
  inv config s -> pool s !! idx = Some w -> in_flight w = true ->
  exists act s', do_action config (ActWorker idx act) s = Some s'.
Proof.
  intros Hinv Hidx Hw.
  destruct (live_worker_open idx w s Hinv Hidx Hw) as [Hopen _].
  assert (Hb : 0 < busy (pool s)).
  { apply list_elem_of_split_length in Hidx as (p1 & p2 & Hp & _).
    rewrite Hp. unfold busy. rewrite pool_sum_app. simpl. rewrite Hw.
    pose proof (busy_nonneg p1). pose proof (busy_nonneg p2).
    unfold busy in *. lia. }
  pose proof (results_have_room s Hinv Hb) as Hroom.
  apply Z.ltb_lt in Hroom.
  unfold do_action. rewrite (inv_nopanic _ _ Hinv), Hidx.
  destruct w as [| | |r|]; try discriminate.
  - exists (NewRequest None 0). simpl. eauto.
  - exists (ClientDo (inr 200) 0). simpl. eauto.
  - exists SendResult. simpl. unfold chan_send. rewrite Hopen, Hroom. eauto.
Qed.

Lemma progress s :
  inv config s -> returned (main s) = false ->
  exists act s', do_action config act s = Some s'.
Proof.
  destruct Hvalid as (_ & Hr & Hc).
  intros Hinv Hnot.
  pose proof (tickets_bound s Hinv) as Hts.
  pose proof (busy_nonneg (pool s)) as Hbusy.
  pose proof Hinv as
    [Hpk Hjc Hrc Hprod Hmain Hpool Htick Hres Hret Hwf Hsent].
  unfold main_inv in Hmain.
  destruct (main s) as [i|a|a|a|a|a] eqn:Hm; try discriminate.
  - (* spawning *)
    exists (ActMain 0). unfold do_action, main_step. rewrite Hpk, Hm.
    destruct (i <? Concurrency config); eauto.
  - (* aggregating *)
    destruct Hmain as (Hok & Hpr & Hcd & Hrcl).
    destruct (Z.ltb_spec (agg_i a) (Requests config)) as [Hlt|Hge].
    2:{ exists (ActMain 0). unfold do_action, main_step. rewrite Hpk, Hm.
        apply Z.ltb_ge in Hge. rewrite Hge. eauto. }
    destruct (chan_buf (results s)) as [|r rest] eqn:Hbuf.
    2:{ exists (ActMain 0). unfold do_action, main_step. rewrite Hpk, Hm.
        apply Z.ltb_lt in Hlt. rewrite Hlt.
        unfold chan_recv. rewrite Hbuf. eauto. }
    simpl in Hres, Hpool.
    destruct (producer s) as [|j|] eqn:Hp; [done| |].
    { exists ActProducer. by eapply producer_never_blocks. }
    unfold producer_inv in Hprod. rewrite Hp in Hprod.
    destruct Hprod as [Hsent_all Hjcl].
    rewrite Hsent_all, ticket_range_length in Htick by lia.
    destruct (decide (0 < busy (pool s))) as [Hb|Hb].
    { apply busy_positive in Hb as (idx & w & Hidx & Hw).
      destruct (busy_worker_moves s idx w Hinv Hidx Hw) as (act & s' & Hs).
      eauto. }
    assert (Hjobs : chan_buf (jobs s) <> []).
    { intros Hnil. rewrite Hnil in Htick. simpl in Htick. lia. }
    destruct (idle_worker (pool s)) as [idx Hidx]; [lia| |].
    { intros Hall. destruct (pool s) as [|w p] eqn:Hpl.
      - simpl in Hpool. specialize (Hpool eq_refl). lia.
      - assert (w = WReturned) as -> by by inversion Hall.
        destruct Hret as [?|[_ ?]]; [by left | congruence | done]. }
    exists (ActWorker idx TakeJob). unfold do_action.
    rewrite Hpk, Hidx. simpl. unfold chan_recv.
    destruct (chan_buf (jobs s)); [done|]. eauto.
  - exists (ActMain 0). unfold do_action, main_step. rewrite Hpk, Hm. eauto.
  - (* waiting for the pool *)
    destruct Hmain as (Hok & Hi & Hpr & Hcd & Hrcl).
    simpl in Hres.
    destruct (forallb is_returned (pool s)) eqn:Hall.
    { exists (ActMain 0). unfold do_action, main_step.
      rewrite Hpk, Hm, Hall. eauto. }
    destruct (idle_worker (pool s)) as [idx Hidx]; [lia| |].
    { intros H. apply forallb_is_returned in H. congruence. }
    exists (ActWorker idx TakeDone). unfold do_action.
    rewrite Hpk, Hidx. simpl. rewrite Hcd. eauto.
  - destruct Hmain as (_ & _ & _ & _ & Hrcl & _).
    exists (ActMain 0). unfold do_action, main_step, chan_close.
    rewrite Hpk, Hm, Hrcl. eauto.
Qed.

(** *** Schedules *)

Lemma run_reachable acts s s' :
  reachable config s -> run config acts s = Some s' -> reachable config s'.
Proof.
  revert s. induction acts as [|a acts IH]; intros s Hs; simpl.
  - by intros [= <-].
  - destruct (do_action config a s) as [s1|] eqn:Hstep; [|discriminate].
    apply IH. by eapply reachable_step.
Qed.

Lemma run_length_bound acts s s' :
  inv config s -> run config acts s = Some s' ->
  Z.of_nat (length acts) + measure config s' <= measure config s.
Proof.
  revert s. induction acts as [|a acts IH]; intros s Hinv; simpl.
  - intros [= <-]. lia.
  - destruct (do_action config a s) as [s1|] eqn:Hstep; [|discriminate].
    intros Hrun. pose proof (measure_step a s s1 Hinv Hstep).
    specialize (IH s1 (inv_step a s s1 Hinv Hstep) Hrun). lia.
Qed.

Lemma eventually_returns s :
  inv config s ->
  exists acts s', run config acts s = Some s' /\ returned (main s') = true.
Proof.
  intros Hinv.
  remember (Z.to_nat (measure config s)) as n eqn:Hn.
  revert s Hinv Hn. induction n as [n IH] using lt_wf_ind.
  intros s Hinv Hn.
  destruct (returned (main s)) eqn:Hret.
  - exists [], s. by split.
  - destruct (progress s Hinv Hret) as (act & s1 & Hstep).
    pose proof (measure_step act s s1 Hinv Hstep) as Hm.
    destruct (IH (Z.to_nat (measure config s1))) with (s := s1)
      as (acts & s' & Hrun & Hdone); [lia | by eapply inv_step | done |].
    exists (act :: acts), s'. simpl. by rewrite Hstep.
Qed.

Lemma pool_size s :
  inv config s -> Z.of_nat (length (pool s)) <= Concurrency config.
Proof.
  intros Hinv. pose proof (inv_main _ _ Hinv) as Hmain.
  pose proof (inv_pool _ _ Hinv) as Hpool. unfold main_inv in Hmain.
  destruct (main s); simpl in *; try (rewrite Hpool by done; lia).
  destruct Hmain as (Hi & -> & _). rewrite length_replicate. lia.
Qed.

Lemma cancelled_after_drain s :
  inv config s -> ctx_done s = true ->
  collected (main s) = Requests config
  /\ chan_buf (results s) = [] /\ busy (pool s) = 0
  /\ chan_buf (jobs s) = [].
Proof.
  intros Hinv Hcd. pose proof (tickets_bound s Hinv) as Hts.
  pose proof (busy_nonneg (pool s)) as Hb.
  destruct Hinv as [_ _ _ _ Hmain _ Htick Hres _ _ _].
  assert (Hcol : collected (main s) = Requests config).
  { unfold main_inv in Hmain.
    destruct (main s); simpl; try tauto.
    - destruct Hmain as (_ & _ & _ & ? & _). congruence.
    - destruct Hmain as (_ & _ & ? & _). congruence. }
  split; [done|].
  destruct (chan_buf (results s)), (chan_buf (jobs s)); simpl in *;
    repeat split; try done; lia.
Qed.

Lemma closed_results_quiet s :
  inv config s -> chan_closed (results s) = true ->
  all_returned (pool s) /\ ctx_done s = true /\ returned (main s) = true.
Proof.
  intros Hinv Hcl. pose proof (inv_main _ _ Hinv) as Hmain.
  unfold main_inv in Hmain.
  destruct (main s); simpl; try (exfalso; intuition congruence).
  tauto.
Qed.

Lemma producer_step_results s s' :
  producer_step config s = Some s' -> results_sent s' = results_sent s.
Proof.
  unfold producer_step. destruct (producer s) as [|i|]; try discriminate.
  destruct (i <? Requests config).
  - destruct (chan_send (jobs s) i); intros [= <-]; done.
  - destruct (chan_close (jobs s)); intros [= <-]; done.
Qed.

End Invariants.

(** ** The claims about the run *)

(** C1. For every valid configuration the aggregation loop of
    [runLoadTest] collects exactly [Requests] results. In every reachable
    state: no more than [Requests] have been collected; every ticket a
    worker has taken is either still in flight in that worker or has
    given exactly one sent result, and every sent result is either
    buffered or collected; some goroutine can move as long as
    [runLoadTest] has not returned; every schedule is finite, and one
    leads to the return; and at the return the loop has run [Requests]
    times, [Requests] results were sent in all, and the report has
    [TotalRequests] equal to [Requests]. *)
Theorem runLoadTest_collects_all (config : Config) (s : State) :
  valid_config config -> reachable config s ->
  collected (main s) <= Requests config
  /\ Z.of_nat (length (tickets_sent s))
       - Z.of_nat (length (chan_buf (jobs s)))
     = busy (pool s) + Z.of_nat (length (results_sent s))
  /\ Z.of_nat (length (results_sent s))
     = Z.of_nat (length (chan_buf (results s))) + collected (main s)
  /\ (returned (main s) = false ->
      exists act s', do_action config act s = Some s')
  /\ (forall acts s', run config acts s = Some s' ->
        Z.of_nat (length acts) <= measure config s)
  /\ (exists acts s',
        run config acts s = Some s' /\ returned (main s') = true)
  /\ (forall a, main s = MReturned a ->
        agg_i a = Requests config
        /\ TotalRequests (agg_report a) = Requests config
        /\ Z.of_nat (length (results_sent s)) = Requests config).
Proof.
  intros Hvalid Hreach.
  pose proof (reachable_inv config Hvalid s Hreach) as Hinv.
  pose proof (tickets_bound config Hvalid s Hinv) as Hts.
  pose proof (busy_nonneg (pool s)) as Hb.
  pose proof Hinv as [_ _ _ _ Hmain _ Htick Hres _ _ _].
  split; [|split; [lia|split; [done|split; [|split; [|split]]]]].
  - lia.
  - by apply progress.
  - intros acts s' Hrun.
    pose proof (run_length_bound config Hvalid acts s s' Hinv Hrun).
    pose proof (measure_nonneg config Hvalid s'
                  (reachable_inv config Hvalid s'
                     (run_reachable config acts s s' Hreach Hrun))).
    lia.
  - by apply eventually_returns.
  - intros a Hm. unfold main_inv in Hmain. rewrite Hm in Hmain, Hres.
    destruct Hmain as ([_ [Htot _ _ _] _] & Hi & _). simpl in Hres.
    repeat split; [done | congruence | lia].
Qed.

Lemma run_demo_reachable s :
  run demo demo_schedule (init demo) = Some s -> reachable demo s.
Proof. apply run_reachable. constructor. Qed.

Lemma valid_demo : valid_config demo.
Proof. repeat split; try done; vm_compute; discriminate. Qed.

Lemma runLoadTest_collects_all_witness :
  valid_config demo /\ reachable demo demo_final
  /\ collected (main demo_final) <= Requests demo.
Proof.
  assert (Hr : reachable demo demo_final)
    by (apply run_demo_reachable; vm_compute; reflexivity).
  split; [exact valid_demo|]. split; [exact Hr|].
  exact (proj1 (runLoadTest_collects_all demo demo_final valid_demo Hr)).
Defined.

(** C6. For every accepted configuration the concurrency used, that is
    the number of workers [runLoadTest] starts, never exceeds the smaller
    of the configured concurrency and the request count: [parseFlags]
    returns the configured concurrency replaced by [Requests] whenever it
    is larger, and no reachable state has more workers than that. With
    one request and a concurrency of five the effective concurrency is
    one. *)
Theorem effective_concurrency (flags config : Config) :
  Requests flags <= GoInt.int_max ->
  parseFlags flags = inr config ->
  Concurrency config = Z.min (Concurrency flags) (Requests flags)
  /\ (Concurrency flags > Requests flags ->
      Concurrency config = Requests flags)
  /\ Requests config = Requests flags
  /\ (forall s, reachable config s ->
        Z.of_nat (length (pool s))
          <= Z.min (Concurrency flags) (Requests flags))
  /\ (forall s, reachable config s -> spawning (main s) = false ->
        Z.of_nat (length (pool s)) = Concurrency config).
Proof.
  intros Hint Hparse.
  assert (Hok : ~ rejected flags).
  { intros Hrej. destruct (parseFlags_rejects flags Hrej) as [err Herr].
    congruence. }
  rewrite (parseFlags_accepts flags Hok) in Hparse.
  injection Hparse as <-. simpl.
  unfold rejected in Hok.
  assert (Hvalid : valid_config
            (mkConfig (URL flags) (Requests flags)
               (Z.min (Concurrency flags) (Requests flags)))).
  { unfold valid_config. simpl. repeat split; try tauto; lia. }
  split; [done|]. split; [lia|]. split; [done|]. split.
  - intros s Hs. apply reachable_inv in Hs; [|done].
    by apply pool_size in Hs.
  - intros s Hs Hsp. apply reachable_inv in Hs; [|done].
    by apply (inv_pool _ _ Hs).
Qed.

Lemma effective_concurrency_witness :
  Requests one_request <= GoInt.int_max
  /\ parseFlags one_request = inr (mkConfig "http://localhost" 1 1)
  /\ Concurrency (mkConfig "http://localhost" 1 1) = 1.
Proof.
  assert (H1 : Requests one_request <= GoInt.int_max)
    by (vm_compute; discriminate).
  assert (H2 : parseFlags one_request = inr (mkConfig "http://localhost" 1 1))
    by reflexivity.
  split; [exact H1|]. split; [exact H2|].
  exact (proj1 (effective_concurrency one_request _ H1 H2)).
Defined.



(** C9. No send on [results] follows [close(results)]. In every
    reachable state nothing has panicked; the context is cancelled only
    once all [Requests] results have been collected, with nothing left
    in either channel and no worker holding a ticket; [close(results)] is
    reached only with every worker returned; and once [results] is
    closed every worker has returned, so no later step sends a result
    or panics. *)
Theorem no_send_after_close (config : Config) (s : State) :
  valid_config config -> reachable config s ->
  panicked s = false
  /\ (ctx_done s = true ->
      collected (main s) = Requests config
      /\ chan_buf (results s) = [] /\ busy (pool s) = 0
      /\ chan_buf (jobs s) = [])
  /\ (forall a, main s = MCloseResults a ->
        all_returned (pool s) /\ ctx_done s = true
        /\ chan_closed (results s) = false)
  /\ (chan_closed (results s) = true ->
      all_returned (pool s) /\ ctx_done s = true
      /\ forall act s', do_action config act s = Some s' ->
            results_sent s' = results_sent s
            /\ panicked s' = false
            /\ pool s' = pool s).
Proof.
  intros Hvalid Hreach.
  pose proof (reachable_inv config Hvalid s Hreach) as Hinv.
  split; [apply (inv_nopanic _ _ Hinv)|].
  split; [by apply cancelled_after_drain|]. split.
  - intros a Hm. pose proof (inv_main _ _ Hinv) as Hmain.
    unfold main_inv in Hmain. rewrite Hm in Hmain. tauto.
  - intros Hcl.
    destruct (closed_results_quiet config s Hinv Hcl) as (Hall & Hcd & Hret).
    split; [done|]. split; [done|].
    intros act s' Hstep.
    pose proof (inv_nopanic _ _ (inv_step config Hvalid act s s' Hinv Hstep)).
    revert Hstep. unfold do_action. rewrite (inv_nopanic _ _ Hinv).
    destruct act as [now| |idx wact].
    + unfold main_step. destruct (main s); try discriminate.
    + intros Hstep. split; [by eapply producer_step_results|].
      split; [done|]. revert Hstep. unfold producer_step.
      destruct (producer s) as [|i|]; try discriminate.
      destruct (i <? Requests config).
      * destruct (chan_send (jobs s) i); intros [= <-]; done.
      * destruct (chan_close (jobs s)); intros [= <-]; done.
    + destruct (pool s !! idx) as [w|] eqn:Hidx; [|discriminate].
      rewrite (all_returned_lookup _ _ _ Hall Hidx).
      by rewrite returned_no_step.
Qed.

Lemma no_send_after_close_witness :
  valid_config demo /\ reachable demo demo_final
  /\ chan_closed (results demo_final) = true
  /\ panicked demo_final = false.
Proof.
  assert (Hr : reachable demo demo_final)
    by (apply run_demo_reachable; vm_compute; reflexivity).
  split; [exact valid_demo|]. split; [exact Hr|].
  split; [vm_compute; reflexivity|].
  exact (proj1 (no_send_after_close demo demo_final valid_demo Hr)).
Defined.

(** Every result on the channel was made by a worker from an outcome of
    the HTTP stack. *)
Lemma sent_results_made_by_worker (config : Config) (s : State) :
  valid_config config -> reachable config s ->
  Forall made_by_worker (results_sent s).
Proof.
  intros Hvalid Hreach. apply (inv_sent config s).
  by apply reachable_inv.
Qed.

Example demo_report :
  match main demo_final with
  | MReturned a =>
      TotalRequests (agg_report a) = 2
      /\ SuccessRequests (agg_report a) = 1
      /\ StatusCodes (agg_report a) !! 0 = Some 1
      /\ StatusCodes (agg_report a) !! 200 = Some 1
  | _ => False
  end.
Proof. vm_compute. repeat split. Qed.

(** The report [runLoadTest] returns is the one the aggregation loop
    builds: its counters add up and the progress lines are all there. *)
Lemma returned_report (config : Config) (s : State) (a : Agg) :
  valid_config config -> reachable config s -> main s = MReturned a ->
  map_sum (StatusCodes (agg_report a)) = Requests config
  /\ SuccessRequests (agg_report a)
     = default 0 (StatusCodes (agg_report a) !! 200)
  /\ agg_out a
     = expected_progress (Requests config) (Z.to_nat (Requests config)).
Proof.
  intros Hvalid Hreach Hm.
  pose proof (inv_main _ _ (reachable_inv config Hvalid s Hreach)) as Hmain.
  unfold main_inv in Hmain. rewrite Hm in Hmain.
  destruct Hmain as ([_ [_ Hsum _ Hsucc] Hout] & Hi & _).
  rewrite Hi in *. done.
Qed.

(** A response with status code 0 travels through a worker as a result
    without error and with [StatusCode] 0. *)
Example status_zero_response_is_sent :
  results_sent <$>
    run demo
      [ActMain 0; ActMain 0; ActMain 0; ActProducer; ActWorker 0 TakeJob;
       ActWorker 0 (NewRequest None 0); ActWorker 0 (ClientDo (inr 0) 4);
       ActWorker 0 SendResult]
      (init demo)
  = Some [{| StatusCode := 0; Duration := 4; Error := None |}].
Proof. reflexivity. Qed.

(** * Further properties of the code *)

(** ** The aggregation loop as a counter *)

Lemma aggregation_loop_stop requests results a :
  requests <= agg_i a -> aggregation_loop requests results a = a.
Proof.
  intros Hge. destruct results as [|r rest]; simpl; [done|].
  by rewrite (proj2 (Z.ltb_ge _ _) Hge).
Qed.

Lemma aggregation_loop_app requests xs ys a :
  aggregation_loop requests (xs ++ ys) a
  = aggregation_loop requests ys (aggregation_loop requests xs a).
Proof.
  revert a. induction xs as [|x xs IH]; intros a; simpl; [done|].
  destruct (Z.ltb_spec (agg_i a) requests) as [Hlt|Hge]; [apply IH|].
  by rewrite aggregation_loop_stop.
Qed.

Lemma aggregate_snoc requests results r :
  agg_i (aggregate requests results) < requests ->
  aggregate requests (results ++ [r])
  = agg_iter requests r (aggregate requests results).
Proof.
  intros Hlt. unfold aggregate. rewrite aggregation_loop_app. simpl.
  fold (aggregate requests results).
  by rewrite (proj2 (Z.ltb_lt _ _) Hlt).
Qed.

Lemma aggregate_processed requests results :
  requests <= GoInt.int_max ->
  aggregate requests results = aggregate requests (processed requests results).
Proof.
  intros Hr. unfold processed.
  rewrite <- (take_drop (Z.to_nat requests) results) at 1.
  unfold aggregate. rewrite aggregation_loop_app.
  fold (aggregate requests (take (Z.to_nat requests) results)).
  destruct (decide (Z.to_nat requests <= length results)%nat) as [Hle|Hgt].
  - apply aggregation_loop_stop.
    rewrite aggregate_index, length_take by done. lia.
  - by rewrite drop_ge by lia.
Qed.

Lemma processed_length requests results :
  Z.of_nat (length (processed requests results))
  = Z.max 0 (Z.min (Z.of_nat (length results)) requests).
Proof. unfold processed. rewrite length_take. lia. Qed.

Lemma tally_snoc k results r :
  tally k (results ++ [r])
  = tally k results + (if decide (counted_under r = k) then 1 else 0).
Proof.
  unfold tally. rewrite filter_app, length_app, filter_cons, filter_nil.
  case_decide; simpl; lia.
Qed.

Lemma successes_snoc results r :
  successes (results ++ [r])
  = successes results + (if counts_as_success r then 1 else 0).
Proof.
  unfold successes. rewrite filter_app, length_app, filter_cons, filter_nil.
  destruct (counts_as_success r); case_decide; simpl; try done; lia.
Qed.

Lemma tally_bounds k results :
  0 <= tally k results <= Z.of_nat (length results).
Proof.
  unfold tally. pose proof (length_filter (fun r => counted_under r = k) results).
  lia.
Qed.

Lemma successes_bounds results :
  0 <= successes results <= Z.of_nat (length results).
Proof.
  unfold successes.
  pose proof (length_filter (fun r => counts_as_success r = true) results).
  lia.
Qed.

(** The report after a sequence the loop processes whole. *)
Lemma aggregate_counts requests results :
  requests <= GoInt.int_max ->
  Z.of_nat (length results) <= requests ->
  let report := agg_report (aggregate requests results) in
  TotalTime report = 0
  /\ TotalRequests report = Z.of_nat (length results)
  /\ SuccessRequests report = successes results
  /\ forall k, StatusCodes report !! k =
        if decide (tally k results = 0) then None
        else Some (tally k results).
Proof.
  intros Hr. induction results as [|r results IH] using rev_ind; intros Hlen.
  - simpl. repeat split; done.
  - cbv zeta in *. rewrite length_app in Hlen. simpl in Hlen.
    destruct IH as (Htime & Htot & Hsucc & Hcodes); [lia|].
    assert (Hi : agg_i (aggregate requests results) < requests)
      by (rewrite aggregate_index by done; lia).
    rewrite aggregate_snoc by done. simpl.
    pose proof (successes_bounds results) as Hsb.
    repeat split.
    + by rewrite record_result_time.
    + rewrite record_result_total, Htot, length_app. simpl.
      rewrite succ_small; lia.
    + rewrite record_result_success, successes_snoc, Hsucc.
      destruct (counts_as_success r); [|lia]. apply succ_small. lia.
    + intros k. rewrite record_result_codes, map_incr_lookup, tally_snoc.
      pose proof (tally_bounds k results) as Hk.
      pose proof (tally_bounds (counted_under r) results) as Hkey.
      destruct (decide (k = counted_under r)) as [->|Hne].
      * rewrite (decide_True (P := counted_under r = counted_under r))
          by done.
        rewrite (decide_False
                   (P := tally (counted_under r) results + 1 = 0)) by lia.
        rewrite Hcodes. f_equal.
        destruct (decide (tally (counted_under r) results = 0)) as [->|_];
          simpl; apply succ_small; lia.
      * rewrite (decide_False (P := counted_under r = k)) by done.
        rewrite Z.add_0_r. apply Hcodes.
Qed.

Lemma processed_fits requests results :
  requests <= GoInt.int_max ->
  Z.of_nat (length (processed requests results)) <= Z.max 0 requests.
Proof. intros Hr. rewrite processed_length. lia. Qed.

Lemma aggregate_nothing requests results :
  requests <= 0 -> aggregate requests results = agg_init.
Proof. intros Hr. apply aggregation_loop_stop. simpl. lia. Qed.

(** X1. The loop consumes at most [Requests] results: whatever else the
    channel would deliver is ignored, the report is that of the first
    [Requests] results, and [TotalRequests] is the number of results
    available or [Requests], whichever is smaller (zero, with an empty
    report, when [Requests] is not positive). *)
Theorem aggregate_ignores_surplus (requests : Z) (results : list Result) :
  requests <= GoInt.int_max ->
  aggregate requests results = aggregate requests (processed requests results)
  /\ TotalRequests (agg_report (aggregate requests results))
     = Z.max 0 (Z.min (Z.of_nat (length results)) requests)
  /\ (requests <= 0 -> aggregate requests results = agg_init).
Proof.
  intros Hr. split; [by apply aggregate_processed|]. split.
  - destruct (aggregate_ok requests results Hr) as [_ [Htot _ _ _] _].
    rewrite Htot. by apply aggregate_index.
  - apply aggregate_nothing.
Qed.

Lemma aggregate_ignores_surplus_witness :
  let rs := [mkResult 200 1 None; mkResult 404 1 None; mkResult 500 1 None] in
  2 <= GoInt.int_max
  /\ TotalRequests (agg_report (aggregate 2 rs)) = 2.
Proof.
  intros rs.
  assert (H : 2 <= GoInt.int_max) by (vm_compute; discriminate).
  split; [exact H|].
  exact (proj1 (proj2 (aggregate_ignores_surplus 2 rs H))).
Defined.

Lemma aggregate_counts_processed requests results :
  requests <= GoInt.int_max ->
  let report := agg_report (aggregate requests results) in
  let seen := processed requests results in
  TotalTime report = 0
  /\ TotalRequests report = Z.of_nat (length seen)
  /\ SuccessRequests report = successes seen
  /\ forall k, StatusCodes report !! k =
        if decide (tally k seen = 0) then None else Some (tally k seen).
Proof.
  intros Hr report seen. unfold report.
  destruct (Z.le_gt_cases requests 0) as [Hneg|Hpos].
  - rewrite aggregate_nothing by done. unfold seen, processed.
    replace (Z.to_nat requests) with 0%nat by lia. rewrite take_0.
    simpl. repeat split; done.
  - rewrite aggregate_processed by done. apply aggregate_counts; [done|].
    pose proof (processed_fits requests results Hr). unfold seen. lia.
Qed.

(** X2. The histogram is the tally of the processed results: the entry
    of [StatusCodes] at a key is the number of processed results counted
    under it (errors under 0, the others under their status code), and a
    key is present only if that number is positive; [SuccessRequests] is
    the number of processed results without error and with code 200. *)
Theorem histogram_is_tally (requests : Z) (results : list Result) (k : Z) :
  requests <= GoInt.int_max ->
  let report := agg_report (aggregate requests results) in
  let seen := processed requests results in
  StatusCodes report !! k
    = (if decide (tally k seen = 0) then None else Some (tally k seen))
  /\ (is_Some (StatusCodes report !! k)
      <-> exists r, r ∈ seen /\ counted_under r = k)
  /\ SuccessRequests report = successes seen
  /\ 0 <= SuccessRequests report <= TotalRequests report.
Proof.
  intros Hr report seen.
  destruct (aggregate_counts_processed requests results Hr)
    as (_ & Htot & Hsucc & Hcodes).
  fold report seen in Htot, Hsucc, Hcodes.
  split; [apply Hcodes|]. split; [|split; [done|]].
  - rewrite Hcodes. unfold tally.
    destruct (filter (fun r => counted_under r = k) seen) as [|r l] eqn:Hf.
    + rewrite decide_True by done. split; [by intros [? ?]|].
      intros (r & Hin & Hkey).
      assert (Hr' : r ∈ filter (fun r => counted_under r = k) seen)
        by (apply list_elem_of_filter; done).
      rewrite Hf in Hr'. by apply elem_of_nil in Hr'.
    + rewrite decide_False by (simpl; lia). split; [|eauto].
      intros _. exists r.
      assert (Hr' : r ∈ filter (fun r => counted_under r = k) seen)
        by (rewrite Hf; left).
      apply list_elem_of_filter in Hr' as [? ?]. by split.
  - rewrite Hsucc, Htot. apply successes_bounds.
Qed.

Lemma histogram_is_tally_witness :
  let rs := [mkResult 200 1 None; mkResult 0 1 (Some "refused");
             mkResult 200 1 None] in
  3 <= GoInt.int_max
  /\ StatusCodes (agg_report (aggregate 3 rs)) !! 200 = Some 2.
Proof.
  intros rs.
  assert (H : 3 <= GoInt.int_max) by (vm_compute; discriminate).
  split; [exact H|].
  exact (proj1 (histogram_is_tally 3 rs 200 H)).
Defined.

Lemma tally_perm k results results' :
  results ≡ₚ results' -> tally k results = tally k results'.
Proof.
  intros Hperm. unfold tally. f_equal. apply Permutation_length.
  by apply filter_Permutation.
Qed.

Lemma successes_perm results results' :
  results ≡ₚ results' -> successes results = successes results'.
Proof.
  intros Hperm. unfold successes. f_equal. apply Permutation_length.
  by apply filter_Permutation.
Qed.

(** X3. The counters do not depend on the order in which the results
    arrive: two sequences that are permutations of each other and short
    enough to be processed whole give the same report. *)
Theorem report_order_independent (requests : Z) (results results' : list Result) :
  requests <= GoInt.int_max ->
  Z.of_nat (length results) <= requests ->
  results ≡ₚ results' ->
  agg_report (aggregate requests results)
  = agg_report (aggregate requests results').
Proof.
  intros Hr Hlen Hperm.
  assert (Hlen' : Z.of_nat (length results') <= requests)
    by (by rewrite <- (Permutation_length Hperm)).
  destruct (aggregate_counts requests results Hr Hlen)
    as (Htime & Htot & Hsucc & Hcodes).
  destruct (aggregate_counts requests results' Hr Hlen')
    as (Htime' & Htot' & Hsucc' & Hcodes').
  destruct (agg_report (aggregate requests results)) as [t n sc m].
  destruct (agg_report (aggregate requests results')) as [t' n' sc' m'].
  simpl in *. subst t t' n n' sc sc'.
  assert (Hm : m = m').
  { apply map_eq. intros k.
    by rewrite Hcodes, Hcodes', (tally_perm k _ _ Hperm). }
  by rewrite Hm, (successes_perm _ _ Hperm), (Permutation_length Hperm).
Qed.

Lemma report_order_independent_witness :
  let a := mkResult 200 1 None in
  let b := mkResult 0 2 (Some "refused") in
  2 <= GoInt.int_max /\ Z.of_nat (length [a; b]) <= 2 /\ [a; b] ≡ₚ [b; a]
  /\ agg_report (aggregate 2 [a; b]) = agg_report (aggregate 2 [b; a]).
Proof.
  intros a b.
  assert (H : 2 <= GoInt.int_max) by (vm_compute; discriminate).
  assert (Hl : Z.of_nat (length [a; b]) <= 2) by (simpl; lia).
  assert (Hp : [a; b] ≡ₚ [b; a]) by apply perm_swap.
  split; [exact H|]. split; [exact Hl|]. split; [exact Hp|].
  exact (report_order_independent 2 [a; b] [b; a] H Hl Hp).
Defined.

(** ** How many progress lines *)

Lemma progress_mark_below requests k :
  k < requests -> progress_mark requests k = (k mod 100 =? 0).
Proof.
  intros Hk. unfold progress_mark.
  rewrite (proj2 (Z.eqb_neq k requests)) by lia. apply orb_false_r.
Qed.

Lemma expected_progress_length_below requests (n : nat) :
  Z.of_nat n < requests ->
  Z.of_nat (length (expected_progress requests n)) = Z.of_nat n / 100.
Proof.
  induction n as [|n IH]; intros Hn; [done|].
  rewrite expected_progress_S, length_app, progress_mark_below by done.
  rewrite Nat2Z.inj_add, IH by lia.
  replace (Z.of_nat (S n)) with (Z.of_nat n + 1) in * by lia.
  destruct (Z.eqb_spec ((Z.of_nat n + 1) mod 100) 0) as [Hm|Hm]; simpl;
    Z.div_mod_to_equations; lia.
Qed.

(** X4. The number of progress lines: a loop that has consumed [n]
    results, fewer than [Requests], has printed [n / 100] lines, and a
    loop that has consumed all [Requests] results has printed
    [Requests / 100] lines rounded up; the line of the final result is
    not printed twice when [Requests] is a multiple of 100. *)
Theorem progress_line_count (requests : Z) (results : list Result) :
  0 < requests <= GoInt.int_max ->
  let printed := Z.of_nat (length (agg_out (aggregate requests results))) in
  (Z.of_nat (length results) < requests ->
     printed = Z.of_nat (length results) / 100)
  /\ (requests <= Z.of_nat (length results) ->
     printed = (requests + 99) / 100).
Proof.
  intros Hr printed. unfold printed.
  destruct (aggregate_ok requests results) as [_ _ Hout]; [lia|].
  rewrite Hout, aggregate_index by lia. split; intros Hlen.
  - replace (Z.max 0 (Z.min (Z.of_nat (length results)) requests))
      with (Z.of_nat (length results)) by lia.
    rewrite Nat2Z.id. apply expected_progress_length_below. lia.
  - replace (Z.max 0 (Z.min (Z.of_nat (length results)) requests))
      with requests by lia.
    replace (Z.to_nat requests) with (S (Z.to_nat (requests - 1))) by lia.
    rewrite expected_progress_S, length_app, Nat2Z.inj_add.
    rewrite expected_progress_length_below by lia.
    replace (Z.of_nat (S (Z.to_nat (requests - 1)))) with requests by lia.
    unfold progress_mark. rewrite Z.eqb_refl, orb_true_r. simpl.
    rewrite Z2Nat.id by lia.
    replace (requests + 99) with (requests - 1 + 1 * 100) by lia.
    rewrite Z.div_add by lia. lia.
Qed.

Lemma progress_line_count_witness :
  0 < 200 <= GoInt.int_max
  /\ Z.of_nat (length (agg_out
        (aggregate 200 (replicate 200 (mkResult 200 1 None)))))
     = (200 + 99) / 100.
Proof.
  assert (H : 0 < 200 <= GoInt.int_max)
    by (split; vm_compute; [reflexivity | discriminate]).
  assert (Hl : 200 <= Z.of_nat (length (replicate 200 (mkResult 200 1 None))))
    by (rewrite length_replicate; lia).
  split; [exact H|].
  exact (proj2 (progress_line_count 200 _ H) Hl).
Defined.

(** ** More on [parseFlags] *)

(** X5. What [parseFlags] accepts it returns normalised: the URL and the
    request count are those given, the concurrency is positive and at
    most the request count, and validating the returned configuration
    again returns it unchanged. *)
Theorem parseFlags_normalises (flags config : Config) :
  parseFlags flags = inr config ->
  URL config = URL flags /\ URL config <> ""
  /\ Requests config = Requests flags /\ 0 < Requests config
  /\ 0 < Concurrency config <= Requests config
  /\ Concurrency config <= Concurrency flags
  /\ parseFlags config = inr config.
Proof.
  intros Hparse.
  assert (Hok : ~ rejected flags).
  { intros Hrej. destruct (parseFlags_rejects flags Hrej) as [err Herr].
    congruence. }
  rewrite (parseFlags_accepts flags Hok) in Hparse.
  injection Hparse as <-. unfold rejected in Hok. simpl.
  repeat split; try tauto; try lia.
  rewrite parseFlags_accepts; simpl.
  - by rewrite Z.min_l by lia.
  - unfold rejected. simpl. intros [?|[?|?]]; [tauto | lia | lia].
Qed.

Lemma parseFlags_normalises_witness :
  parseFlags one_request = inr (mkConfig "http://localhost" 1 1)
  /\ parseFlags (mkConfig "http://localhost" 1 1)
     = inr (mkConfig "http://localhost" 1 1).
Proof.
  assert (H : parseFlags one_request = inr (mkConfig "http://localhost" 1 1))
    by reflexivity.
  split; [exact H|].
  exact (proj2 (proj2 (proj2 (proj2 (proj2 (proj2
           (parseFlags_normalises one_request _ H))))))).
Defined.

(** X6. [parseFlags] reports one error, the first in the order URL,
    request count, concurrency: an empty URL is reported whatever the
    counts are, a non-positive request count is reported before the
    concurrency is looked at, and the three messages differ. *)
Theorem parseFlags_first_error (flags : Config) :
  (URL flags = "" -> parseFlags flags = inl err_url)
  /\ (URL flags <> "" -> Requests flags <= 0 ->
      parseFlags flags = inl err_requests)
  /\ (URL flags <> "" -> 0 < Requests flags -> Concurrency flags <= 0 ->
      parseFlags flags = inl err_concurrency)
  /\ err_url <> err_requests /\ err_url <> err_concurrency
  /\ err_requests <> err_concurrency.
Proof.
  unfold parseFlags. repeat split; try discriminate.
  - intros Hu. by rewrite decide_True.
  - intros Hu Hr. rewrite decide_False by done.
    by rewrite (proj2 (Z.leb_le _ _) Hr).
  - intros Hu Hr Hc. rewrite decide_False by done.
    rewrite (proj2 (Z.leb_gt _ _) Hr). by rewrite (proj2 (Z.leb_le _ _) Hc).
Qed.

(** ** From the HTTP outcome to the counters *)

(** X7. What one request does to the report: a failure without response
    is counted under 0 and a response under its own status code, and
    only a response with status 200 counts as a success, so 4xx and 5xx
    responses are tallied but are no successes; a response whose status
    code is 0 leaves the same report as a failure. *)
Theorem outcome_to_counters (o : HttpOutcome) (elapsed : Z) (report : Report) :
  let after := record_result (worker_result o elapsed) report in
  StatusCodes after = map_incr (outcome_key o) (StatusCodes report)
  /\ SuccessRequests after =
       (if outcome_ok o
        then GoInt.succ (SuccessRequests report)
        else SuccessRequests report)
  /\ (forall err elapsed',
        record_result (worker_result (Response 0) elapsed) report
        = record_result (worker_result (ClientError err) elapsed') report).
Proof.
  split; [|split].
  - by destruct o.
  - by destruct o.
  - done.
Qed.

(** ** More on the run of [runLoadTest] *)

Section RunFacts.

Variable config : Config.
Hypothesis Hvalid : valid_config config.

(** What a step of a worker leaves alone. *)
Lemma worker_step_frame act w s w' s' :
  worker_step act w s = Some (w', s') ->
  main s' = main s /\ producer s' = producer s
  /\ tickets_sent s' = tickets_sent s /\ pool s' = pool s
  /\ (chan_buf (jobs s') = chan_buf (jobs s)
      \/ exists t, chan_buf (jobs s) = t :: chan_buf (jobs s'))
  /\ ((results_sent s' = results_sent s
       /\ chan_buf (results s') = chan_buf (results s))
      \/ exists r, w = WSend r
           /\ results_sent s' = results_sent s ++ [r]
           /\ chan_buf (results s') = chan_buf (results s) ++ [r]).
Proof.
  destruct w as [| | |r|], act as [| |[err|] d|[err|status] d|];
    simpl; try discriminate.
  - destruct (ctx_done s); intros [= <- <-]. tauto.
  - unfold chan_recv. destruct (chan_buf (jobs s)) as [|t rest] eqn:Hbuf.
    + destruct (chan_closed (jobs s)); intros [= <- <-]. tauto.
    + intros [= <- <-]. simpl. repeat split; eauto.
  - intros [= <- <-]. tauto.
  - intros [= <- <-]. tauto.
  - intros [= <- <-]. tauto.
  - intros [= <- <-]. tauto.
  - unfold chan_send. destruct (chan_closed (results s)).
    + intros [= <- <-]. simpl. tauto.
    + destruct (Z.of_nat (length (chan_buf (results s))) <? chan_cap (results s));
        intros [= <- <-]. simpl. repeat split; eauto.
Qed.

(** What a step of the producer leaves alone. *)
Lemma producer_step_frame s s' :
  producer_step config s = Some s' ->
  main s' = main s /\ pool s' = pool s
  /\ results_sent s' = results_sent s /\ results s' = results s
  /\ ((tickets_sent s' = tickets_sent s
       /\ chan_buf (jobs s') = chan_buf (jobs s))
      \/ exists t, tickets_sent s' = tickets_sent s ++ [t]
           /\ chan_buf (jobs s') = chan_buf (jobs s) ++ [t]).
Proof.
  unfold producer_step. destruct (producer s) as [|i|]; try discriminate.
  destruct (i <? Requests config).
  - unfold chan_send. destruct (chan_closed (jobs s)).
    + intros [= <-]. simpl. tauto.
    + destruct (Z.of_nat (length (chan_buf (jobs s))) <? chan_cap (jobs s));
        intros [= <-]. simpl. repeat split; eauto.
  - unfold chan_close. destruct (chan_closed (jobs s)); intros [= <-];
      simpl; tauto.
Qed.





Lemma received_in_order_step a s s' :
  inv config s ->
  (exists received, results_sent s = received ++ chan_buf (results s)
     /\ agg_matches (Requests config) (main s) received) ->
  do_action config a s = Some s' ->
  exists received, results_sent s' = received ++ chan_buf (results s')
    /\ agg_matches (Requests config) (main s') received.
Proof.
  intros Hinv (received & Hsent & Hagg). unfold do_action.
  destruct (panicked s); [discriminate|].
  destruct a as [now| |idx act].
  - pose proof (inv_main _ _ Hinv) as Hmain. revert Hmain Hagg.
    unfold main_step, main_inv, agg_matches.
    destruct (main s) as [i|a|a|a|a|a].
    + intros _ ->.
      destruct (i <? Concurrency config); intros [= <-]; simpl;
        exists []; done.
    + intros (_ & _ & _ & Hopen) ->.
      destruct (Z.ltb_spec (agg_i (aggregate (Requests config) received))
                  (Requests config)) as [Hlt|Hge].
      * unfold chan_recv.
        destruct (chan_buf (results s)) as [|r rest] eqn:Hbuf.
        -- rewrite Hopen. discriminate.
        -- intros [= <-]. simpl. exists (received ++ [r]).
           split; [by rewrite Hsent, <- app_assoc|].
           by rewrite aggregate_snoc.
      * intros [= <-]. simpl. eauto.
    + intros _ Ht [= <-]. simpl. eauto.
    + intros _ Ht. destruct (forallb is_returned (pool s)); intros [= <-].
      simpl. eauto.
    + intros (_ & _ & _ & _ & Hopen & _) Ht. unfold chan_close.
      rewrite Hopen. intros [= <-]. simpl. eauto.
    + discriminate.
  - intros Hstep.
    apply producer_step_frame in Hstep as (-> & _ & -> & -> & _). eauto.
  - destruct (pool s !! idx) as [w|]; [|discriminate].
    destruct (worker_step act w s) as [[w' s2]|] eqn:Hstep; [|discriminate].
    intros [= <-]. simpl.
    apply worker_step_frame in Hstep
      as (-> & _ & _ & _ & _ & [[-> ->]|(r & _ & -> & ->)]); [eauto|].
    exists received. split; [|done]. by rewrite Hsent, app_assoc.
Qed.

Lemma received_in_order s :
  reachable config s ->
  exists received, results_sent s = received ++ chan_buf (results s)
    /\ agg_matches (Requests config) (main s) received.
Proof.
  induction 1 as [|s a s' Hs IH Hstep]; [by exists []|].
  eapply received_in_order_step; [|done|done].
  by apply reachable_inv.
Qed.

Lemma busy_of_lookup (p : list Worker) idx w :
  p !! idx = Some w -> in_flight w = true -> 0 < busy p.
Proof.
  intros Hidx Hw.
  apply list_elem_of_split_length in Hidx as (p1 & p2 & -> & _).
  unfold busy. rewrite pool_sum_app. simpl. rewrite Hw.
  pose proof (busy_nonneg p1). pose proof (busy_nonneg p2).
  unfold busy in *. lia.
Qed.

Lemma returned_total s a :
  inv config s -> main s = MReturned a ->
  TotalRequests (agg_report a) = Requests config
  /\ Z.of_nat (length (results_sent s)) = Requests config
  /\ chan_buf (results s) = [].
Proof.
  intros Hinv Hm.
  pose proof (inv_main _ _ Hinv) as Hmain.
  unfold main_inv in Hmain. rewrite Hm in Hmain.
  destruct Hmain as ([_ [Htot _ _ _] _] & Hi & _ & Hcd & _).
  destruct (cancelled_after_drain config Hvalid s Hinv Hcd)
    as (_ & Hbuf & _ & _).
  pose proof (inv_results _ _ Hinv) as Hres.
  rewrite Hm, Hbuf in Hres. simpl in Hres.
  split; [congruence|]. split; [lia | done].
Qed.

End RunFacts.

(** X8. The report [runLoadTest] returns is the sequential aggregation
    of the results in the order the workers sent them: at every moment
    the results sent are those the loop has received followed by those
    still buffered, the loop state is the loop run on the received
    ones, and at the return (all sent results received) every entry of
    the histogram is the tally of the sent results. *)
Theorem report_aggregates_sent_results (config : Config) (s : State) :
  valid_config config -> reachable config s ->
  (exists received,
     results_sent s = received ++ chan_buf (results s)
     /\ agg_matches (Requests config) (main s) received)
  /\ (forall a, main s = MReturned a ->
        (exists t, a = set_total_time t
                         (aggregate (Requests config) (results_sent s)))
        /\ SuccessRequests (agg_report a) = successes (results_sent s)
        /\ forall k, StatusCodes (agg_report a) !! k =
             if decide (tally k (results_sent s) = 0) then None
             else Some (tally k (results_sent s))).
Proof.
  intros Hvalid Hreach.
  pose proof (reachable_inv config Hvalid s Hreach) as Hinv.
  destruct (received_in_order config Hvalid s Hreach)
    as (received & Hsent & Hagg).
  split; [eauto|]. intros a Hm.
  destruct (returned_total config Hvalid s a Hinv Hm) as (_ & Hlen & Hbuf).
  rewrite Hbuf, app_nil_r in Hsent. subst received.
  rewrite Hm in Hagg. simpl in Hagg. destruct Hagg as [t ->].
  split; [eauto|].
  destruct Hvalid as (_ & Hr & _).
  destruct (aggregate_counts (Requests config) (results_sent s))
    as (_ & _ & Hsucc & Hcodes); [lia | lia |].
  simpl. by split.
Qed.

Lemma report_aggregates_sent_results_witness :
  valid_config demo /\ reachable demo demo_final
  /\ exists received,
       results_sent demo_final = received ++ chan_buf (results demo_final)
       /\ agg_matches (Requests demo) (main demo_final) received.
Proof.
  assert (Hr : reachable demo demo_final)
    by (apply run_demo_reachable; vm_compute; reflexivity).
  split; [exact valid_demo|]. split; [exact Hr|].
  exact (proj1 (report_aggregates_sent_results demo demo_final valid_demo Hr)).
Defined.



(** X10. A worker never blocks on sending its result: whenever a worker
    stands before one of its sends, the result channel is open and has
    room, and the send appends the result to the channel and takes the
    worker back to its [select]. *)
Theorem worker_send_never_blocks (config : Config) (s : State)
    (idx : nat) (r : Result) :
  valid_config config -> reachable config s ->
  pool s !! idx = Some (WSend r) ->
  exists s',
    do_action config (ActWorker idx SendResult) s = Some s'
    /\ results_sent s' = results_sent s ++ [r]
    /\ chan_buf (results s') = chan_buf (results s) ++ [r]
    /\ pool s' = <[idx := WSelect]> (pool s)
    /\ panicked s' = false.
Proof.
  intros Hvalid Hreach Hidx.
  pose proof (reachable_inv config Hvalid s Hreach) as Hinv.
  destruct (live_worker_open config idx (WSend r) s Hinv Hidx eq_refl)
    as [Hopen _].
  pose proof (results_have_room config Hvalid s Hinv
                (busy_of_lookup _ idx (WSend r) Hidx eq_refl)) as Hroom.
  apply Z.ltb_lt in Hroom.
  unfold do_action. rewrite (inv_nopanic _ _ Hinv), Hidx. simpl.
  unfold chan_send. rewrite Hopen, Hroom.
  eexists. split; [done|]. simpl.
  repeat split; try done. apply (inv_nopanic _ _ Hinv).
Qed.

Lemma worker_send_never_blocks_witness :
  valid_config demo /\ reachable demo demo_sending
  /\ pool demo_sending !! 1%nat
     = Some (WSend (mkResult 0 3 (Some "bad")))
  /\ exists s',
       do_action demo (ActWorker 1 SendResult) demo_sending = Some s'
       /\ results_sent s'
          = results_sent demo_sending ++ [mkResult 0 3 (Some "bad")]
       /\ chan_buf (results s')
          = chan_buf (results demo_sending) ++ [mkResult 0 3 (Some "bad")]
       /\ pool s' = <[1%nat := WSelect]> (pool demo_sending)
       /\ panicked s' = false.
Proof.
  assert (Hr : reachable demo demo_sending).
  { apply (run_reachable demo (take 9 demo_schedule) (init demo));
      [constructor | vm_compute; reflexivity]. }
  assert (Hp : pool demo_sending !! 1%nat
               = Some (WSend (mkResult 0 3 (Some "bad"))))
    by (vm_compute; reflexivity).
  split; [exact valid_demo|]. split; [exact Hr|]. split; [exact Hp|].
  exact (worker_send_never_blocks demo demo_sending 1 _ valid_demo Hr Hp).
Defined.



Lemma one_request_accepted : ~ rejected one_request.
Proof. unfold rejected. simpl. intros [?|[?|?]]; [done | lia | lia]. Qed.

(** X12. From the flags to the report: for flags that [parseFlags]
    accepts, [main] starts a run that can always be driven to the return
    of [runLoadTest], and every report returned has [TotalRequests]
    equal to the request count given on the command line. *)
Theorem main_runs_to_report (flags : Config) :
  ~ rejected flags -> Requests flags <= GoInt.int_max ->
  exists config,
    main_start flags = Running config (init config)
    /\ valid_config config
    /\ (exists acts s a,
          run config acts (init config) = Some s
          /\ main s = MReturned a
          /\ TotalRequests (agg_report a) = Requests flags)
    /\ (forall s a, reachable config s -> main s = MReturned a ->
          TotalRequests (agg_report a) = Requests flags).
Proof.
  intros Hok Hint. eexists. unfold main_start.
  rewrite (parseFlags_accepts flags Hok). split; [done|].
  set (config := mkConfig (URL flags) (Requests flags)
                   (Z.min (Concurrency flags) (Requests flags))).
  assert (Hvalid : valid_config config).
  { unfold rejected in Hok. unfold valid_config. simpl.
    repeat split; try tauto; lia. }
  assert (Hret : forall s a, reachable config s -> main s = MReturned a ->
            TotalRequests (agg_report a) = Requests flags).
  { intros s a Hs Hm.
    by destruct (returned_total config Hvalid s a
                   (reachable_inv config Hvalid s Hs) Hm). }
  split; [done|]. split; [|done].
  destruct (eventually_returns config Hvalid (init config))
    as (acts & s & Hrun & Hdone); [by apply inv_init|].
  destruct (main s) as [| | | | |a] eqn:Hm; try discriminate.
  exists acts, s, a. repeat split; try done.
  apply (Hret s a); [|done].
  eapply run_reachable; [constructor | done].
Qed.

Lemma main_runs_to_report_witness :
  ~ rejected one_request /\ Requests one_request <= GoInt.int_max
  /\ exists config,
       main_start one_request = Running config (init config)
       /\ valid_config config
       /\ (exists acts s a,
             run config acts (init config) = Some s
             /\ main s = MReturned a
             /\ TotalRequests (agg_report a) = Requests one_request)
       /\ (forall s a, reachable config s -> main s = MReturned a ->
             TotalRequests (agg_report a) = Requests one_request).
Proof.
  assert (H : Requests one_request <= GoInt.int_max)
    by (vm_compute; discriminate).
  split; [exact one_request_accepted|]. split; [exact H|].
  exact (main_runs_to_report one_request one_request_accepted H).
Defined.

(** X13. A worker leaves its loop only for one of the two reasons of its
    [select]: the context is cancelled, or the job channel is closed and
    empty, in which case all [Requests] tickets have been produced and
    taken. As long as neither holds, every worker started is still
    running. *)
Theorem worker_returns_only_when_done (config : Config) (s : State) :
  valid_config config -> reachable config s ->
  WReturned ∈ pool s ->
  ctx_done s = true
  \/ (chan_closed (jobs s) = true /\ chan_buf (jobs s) = []
      /\ tickets_sent s = ticket_range (Requests config)).
Proof.
  intros Hvalid Hreach Hin.
  pose proof (reachable_inv config Hvalid s Hreach) as Hinv.
  destruct (inv_returned _ _ Hinv Hin) as [Hcd|[Hcl Hbuf]]; [by left|].
  right. split; [done|]. split; [done|].
  pose proof (inv_producer _ _ Hinv) as Hprod. unfold producer_inv in Hprod.
  destruct (producer s) as [|i|].
  - destruct Hprod as [_ ?]. congruence.
  - destruct Hprod as (_ & _ & ?). congruence.
  - tauto.
Qed.

Lemma worker_returns_only_when_done_witness :
  valid_config demo /\ reachable demo demo_final
  /\ WReturned ∈ pool demo_final
  /\ (ctx_done demo_final = true
      \/ (chan_closed (jobs demo_final) = true
          /\ chan_buf (jobs demo_final) = []
          /\ tickets_sent demo_final = ticket_range (Requests demo))).
Proof.
  assert (Hr : reachable demo demo_final)
    by (apply run_demo_reachable; vm_compute; reflexivity).
  assert (Hin : WReturned ∈ pool demo_final) by (vm_compute; left).
  split; [exact valid_demo|]. split; [exact Hr|]. split; [exact Hin|].
  exact (worker_returns_only_when_done demo demo_final valid_demo Hr Hin).
Defined.
